(** * Inquiryon workflows: the workflow engine and the LLM dispatch manager

    A shallow embedding of

    - [core/WorkflowEngine.ts] (class [WorkflowEngine]) with the types of
      [types/workflow.ts] and [types/events.ts], and
    - [quality/llm/LLMManager.ts] (class [LLMManager]) with
      [LLMProviderFactory.ts], the adapters [providers/GeminiProvider.ts],
      [providers/OpenAIProvider.ts], [providers/AnthropicProvider.ts],
      [providers/BaseLLMProvider.ts] and the types of [types.ts],

    followed by the properties of the specification that concern them.

    Conventions of the embedding.

    - Mutable class fields become the fields of a record that every
      method takes and returns (explicit state passing).
    - A method that can [throw] returns, next to the state it leaves,
      either its value or the error it threw.
    - [await] is sequencing: one call runs to its end, as the
      specification requires of the callers of one instance.
    - [emitEvent] appends to an observation trace. An observation pairs
      the event with the engine as a synchronous listener sees it at
      the time of the emission.
    - Identifiers from [uuidv4()] are supplied by the caller of the
      model; event ids and [Date] stamps carry no control flow and are
      left out of the records.
    - An SDK of an LLM vendor is a function from the request the adapter
      builds to a result or a thrown value; [console] output other than
      the lines of [LLMManager.chat] is left out. *)

From Stdlib Require Import QArith.
From stdpp Require Import gmap strings list fin_maps pretty.

Set Warnings "-register-all".

(** ** JavaScript values *)

(** Payloads typed [any] / [Record<string, any>] in the source. Numbers
    are kept as integers: no operation of the engine computes with
    them. *)
Inductive Value : Type :=
  | VUndefined
  | VNull
  | VBool (b : bool)
  | VNum (n : Z)
  | VStr (s : string)
  | VArr (l : list Value)
  | VObj (m : gmap string Value).

(** JavaScript truthiness, as used by [||] and [if (...)]. *)
Definition truthy (v : Value) : bool :=
  match v with
  | VUndefined | VNull => false
  | VBool b => b
  | VNum n => negb (n =? 0)%Z
  | VStr s => negb (String.eqb s "")
  | VArr _ | VObj _ => true
  end.

(** [o.k]: reading a property that is absent yields [undefined]. *)
Definition prop (o : gmap string Value) (k : string) : Value :=
  default VUndefined (o !! k).

(** [a || b] on values. *)
Definition js_or (a b : Value) : Value := if truthy a then a else b.

Fixpoint chars (s : string) : list Value :=
  match s with
  | EmptyString => []
  | String c s' => VStr (String c EmptyString) :: chars s'
  end.

Definition indexed (l : list Value) : gmap string Value :=
  list_to_map (imap (λ i v, (pretty i, v)) l).

(** The own enumerable properties copied by an object spread [{...v}]. *)
Definition spread (v : Value) : gmap string Value :=
  match v with
  | VObj m => m
  | VArr l => indexed l
  | VStr s => indexed (chars s)
  | VUndefined | VNull | VBool _ | VNum _ => ∅
  end.

(** [Array.prototype.includes] on an array of strings. *)
Definition includes (l : list string) (x : string) : bool :=
  existsb (String.eqb x) l.

(** What a [catch (error)] clause can receive. *)
Inductive Thrown :=
  | ThrownError (message : string)   (* [error instanceof Error] *)
  | ThrownOther (v : Value).

(** [error instanceof Error ? error.message : 'Unknown error'] *)
Definition describe (t : Thrown) : string :=
  match t with
  | ThrownError m => m
  | ThrownOther _ => "Unknown error"
  end.

(** ** The workflow engine *)

Module Workflow.

(** *** Types ([types/workflow.ts], [types/events.ts]) *)

Record WorkflowStep := {
  step_id : string;
  step_name : string;
  (* declared 'agent' | 'human' | 'system'; any string at run time *)
  step_type : string;
  step_config : gmap string Value;
  (* [dependencies?: string[]] *)
  dependencies : option (list string)
}.

Record WorkflowDefinition := {
  wf_id : string;
  wf_name : string;
  wf_description : option string;
  steps : list WorkflowStep;
  wf_metadata : option (gmap string Value)
}.

Inductive Status := pending | running | paused | completed | failed.

#[global] Instance Status_eq_dec : EqDecision Status.
Proof. solve_decision. Defined.

Record WorkflowState := {
  st_id : string;
  workflowId : string;
  currentStepId : option string;
  completedSteps : list string;
  stepData : gmap string Value;
  status : Status
}.

Record HumanInput := {
  hi_stepId : string;
  hi_prompt : Value;
  hi_inputType : Value;
  hi_options : Value;
  hi_metadata : Value
}.

Record StepResult := {
  sr_stepId : string;
  success : bool;
  data : Value;
  error : option string;
  requiresHuman : option HumanInput
}.

(** The [type] tag of an event together with its [data]. *)
Inductive EventData :=
  | step_started (stepId : string) (step : WorkflowStep)
  | step_completed (stepId : string) (result : Value)
  | human_input_required (humanInput : HumanInput) (state : WorkflowState)
  | workflow_completed (state : WorkflowState)
  | workflow_failed (stepId : string) (err : option string).

Record WorkflowEvent := {
  ev_workflowId : string;
  ev_data : EventData
}.

(** The three private maps of [WorkflowEngine]. *)
Record Engine := {
  workflows : gmap string WorkflowDefinition;
  states : gmap string WorkflowState;
  pendingHumanInputs : gmap string HumanInput
}.

Definition new_engine : Engine :=
  {| workflows := ∅; states := ∅; pendingHumanInputs := ∅ |}.

(** An emitted event and the engine at the time of the emission. *)
Definition Obs : Type := WorkflowEvent * Engine.

(** Errors thrown by the public methods themselves. *)
Inductive EngineError :=
  | NotFound (workflowId : string)  (* `Workflow ${workflowId} not found` *)
  | InvalidState.                   (* 'No pending human input for this workflow' *)

Inductive Completion (A : Type) :=
  | Returned (a : A)
  | Threw (e : EngineError).
Arguments Returned {A} a.
Arguments Threw {A} e.

(** *** Field updates on the state object stored in [states] *)

Definition with_status (s : Status) (st : WorkflowState) : WorkflowState :=
  {| st_id := st_id st; workflowId := workflowId st;
     currentStepId := currentStepId st; completedSteps := completedSteps st;
     stepData := stepData st; status := s |}.

Definition with_currentStepId (c : string) (st : WorkflowState) : WorkflowState :=
  {| st_id := st_id st; workflowId := workflowId st;
     currentStepId := Some c; completedSteps := completedSteps st;
     stepData := stepData st; status := status st |}.

(** [state.completedSteps.push(x)] *)
Definition push_completed (x : string) (st : WorkflowState) : WorkflowState :=
  {| st_id := st_id st; workflowId := workflowId st;
     currentStepId := currentStepId st;
     completedSteps := completedSteps st ++ [x];
     stepData := stepData st; status := status st |}.

(** [state.stepData[k] = v] *)
Definition set_stepData (k : string) (v : Value) (st : WorkflowState) : WorkflowState :=
  {| st_id := st_id st; workflowId := workflowId st;
     currentStepId := currentStepId st; completedSteps := completedSteps st;
     stepData := <[k := v]> (stepData st); status := status st |}.

(** The state object of an instance is shared between the map and the
    local variable [state]: a field update is an update of the entry. *)
Definition put_state (instanceId : string) (st : WorkflowState) (e : Engine) : Engine :=
  {| workflows := workflows e;
     states := <[instanceId := st]> (states e);
     pendingHumanInputs := pendingHumanInputs e |}.

Definition set_pending (instanceId : string) (h : HumanInput) (e : Engine) : Engine :=
  {| workflows := workflows e; states := states e;
     pendingHumanInputs := <[instanceId := h]> (pendingHumanInputs e) |}.

Definition delete_pending (instanceId : string) (e : Engine) : Engine :=
  {| workflows := workflows e; states := states e;
     pendingHumanInputs := delete instanceId (pendingHumanInputs e) |}.

(** *** Methods *)

(** [registerWorkflow] *)
Definition registerWorkflow (workflow : WorkflowDefinition) (e : Engine) : Engine :=
  {| workflows := <[wf_id workflow := workflow]> (workflows e);
     states := states e;
     pendingHumanInputs := pendingHumanInputs e |}.

(** The callback given to [find] in [findNextStep]. *)
Definition can_run (state : WorkflowState) (step : WorkflowStep) : bool :=
  if includes (completedSteps state) (step_id step) then false
  else match dependencies step with
       | Some deps => forallb (includes (completedSteps state)) deps
       | None => true
       end.

(** [findNextStep] *)
Definition findNextStep (workflow : WorkflowDefinition) (state : WorkflowState)
  : option WorkflowStep :=
  find (can_run state) (steps workflow).

(** [executeStep], the default behaviour by type tag. *)
Definition executeStep_default (step : WorkflowStep) (state : WorkflowState)
  : StepResult + Thrown :=
  if String.eqb (step_type step) "human" then
    inl {| sr_stepId := step_id step; success := true; data := VUndefined;
           error := None;
           requiresHuman := Some
             {| hi_stepId := step_id step;
                hi_prompt := js_or (prop (step_config step) "prompt")
                  (VStr ("Input required for step: " +:+ step_name step));
                hi_inputType := js_or (prop (step_config step) "inputType")
                  (VStr "text");
                hi_options := prop (step_config step) "options";
                hi_metadata := prop (step_config step) "metadata" |} |}
  else if String.eqb (step_type step) "system" then
    inl {| sr_stepId := step_id step; success := true;
           data := VObj {[ "message" :=
             VStr ("System step " +:+ step_name step +:+ " completed") ]};
           error := None; requiresHuman := None |}
  else if String.eqb (step_type step) "agent" then
    inl {| sr_stepId := step_id step; success := true;
           data := VObj {[ "message" :=
             VStr ("Agent step " +:+ step_name step +:+ " completed") ]};
           error := None; requiresHuman := None |}
  else
    inl {| sr_stepId := step_id step; success := false; data := VUndefined;
           error := Some ("Unknown step type: " +:+ step_type step);
           requiresHuman := None |}.

(** [emitEvent] *)
Definition emitEvent (e : Engine) (instanceId : string) (d : EventData) : Obs :=
  ({| ev_workflowId := instanceId; ev_data := d |}, e).

(** A call of a public method. *)
Inductive Call :=
  | call_registerWorkflow (workflow : WorkflowDefinition)
  | call_startWorkflow (workflowId uuid : string) (initialData : option (gmap string Value))
  | call_provideHumanInput (instanceId : string) (input : Value).

Definition thrown {A} (c : Completion A) : option EngineError :=
  match c with
  | Returned _ => None
  | Threw err => Some err
  end.


Section Engine.

(** [executeStep] is [protected] and meant to be overridden by
    subclasses; the engine is verified for every override that is a
    function of the step and the state it is given. *)
Variable executeStep : WorkflowStep → WorkflowState → StepResult + Thrown.

(** [executeNextStep]. The source recurses after every successful step;
    [fuel] bounds the number of recursive calls and [None] means the
    bound was too small (see [executeNextStep_enough_fuel]). *)
Fixpoint executeNextStep (fuel : nat) (e : Engine) (instanceId : string)
  : option (Engine * list Obs) :=
  match states e !! instanceId with
  | None => Some (e, [])
  | Some state =>
    match workflows e !! workflowId state with
    | None => Some (e, [])
    | Some workflow =>
      match findNextStep workflow state with
      | None =>
          let state1 := with_status completed state in
          let e1 := put_state instanceId state1 e in
          Some (e1, [emitEvent e1 instanceId (workflow_completed state1)])
      | Some nextStep =>
          let state1 :=
            with_status running (with_currentStepId (step_id nextStep) state) in
          let e1 := put_state instanceId state1 e in
          let started :=
            emitEvent e1 instanceId (step_started (step_id nextStep) nextStep) in
          match executeStep nextStep state1 with
          | inl result =>
              match requiresHuman result with
              | Some h =>
                  let state2 := with_status paused state1 in
                  let e2 := set_pending instanceId h (put_state instanceId state2 e1) in
                  Some (e2, [started;
                             emitEvent e2 instanceId (human_input_required h state2)])
              | None =>
                  if success result then
                    let state2 := push_completed (step_id nextStep) state1 in
                    let state3 :=
                      if truthy (data result)
                      then set_stepData (step_id nextStep) (data result) state2
                      else state2 in
                    let e2 := put_state instanceId state3 e1 in
                    let done :=
                      emitEvent e2 instanceId
                        (step_completed (step_id nextStep) (data result)) in
                    match fuel with
                    | O => None
                    | S fuel' =>
                        '(e3, obs) ← executeNextStep fuel' e2 instanceId;
                        Some (e3, started :: done :: obs)
                    end
                  else
                    let state2 := with_status failed state1 in
                    let e2 := put_state instanceId state2 e1 in
                    Some (e2, [started;
                               emitEvent e2 instanceId
                                 (workflow_failed (step_id nextStep) (error result))])
              end
          | inr thrown =>
              let state2 := with_status failed state1 in
              let e2 := put_state instanceId state2 e1 in
              Some (e2, [started;
                         emitEvent e2 instanceId
                           (workflow_failed (step_id nextStep) (Some (describe thrown)))])
          end
      end
    end
  end.

(** The number of recursive calls an instance can still need: every
    call that recurses completes a step of the definition that was not
    completed before. *)
Definition fuel_for (e : Engine) (instanceId : string) : nat :=
  match states e !! instanceId with
  | None => 0
  | Some state =>
      match workflows e !! workflowId state with
      | None => 0
      | Some workflow => length (steps workflow)
      end
  end.

Definition run_loop (e : Engine) (instanceId : string) : option (Engine * list Obs) :=
  executeNextStep (fuel_for e instanceId) e instanceId.

(** The state object created by [startWorkflow]. *)
Definition initial_state (instanceId workflowId : string)
    (initialData : option (gmap string Value)) : WorkflowState :=
  {| st_id := instanceId; workflowId := workflowId; currentStepId := None;
     completedSteps := []; stepData := default ∅ initialData;
     status := pending |}.

(** [startWorkflow]; [instanceId] is the value of [uuidv4()]. *)
Definition startWorkflow (e : Engine) (workflowId instanceId : string)
    (initialData : option (gmap string Value))
  : option (Engine * list Obs * Completion string) :=
  match workflows e !! workflowId with
  | None => Some (e, [], Threw (NotFound workflowId))
  | Some _ =>
      let e1 := put_state instanceId (initial_state instanceId workflowId initialData) e in
      '(e2, obs) ← run_loop e1 instanceId;
      Some (e2, obs, Returned instanceId)
  end.

(** [provideHumanInput] *)
Definition provideHumanInput (e : Engine) (instanceId : string) (input : Value)
  : option (Engine * list Obs * Completion unit) :=
  match states e !! instanceId, pendingHumanInputs e !! instanceId with
  | Some state, Some pendingInput =>
      if decide (status state = paused) then
        let state1 :=
          set_stepData (hi_stepId pendingInput)
            (VObj (<["humanInput" := input]>
                     (spread (prop (stepData state) (hi_stepId pendingInput)))))
            state in
        let state2 := with_status running (push_completed (hi_stepId pendingInput) state1) in
        let e1 := delete_pending instanceId (put_state instanceId state2 e) in
        let done := emitEvent e1 instanceId (step_completed (hi_stepId pendingInput) input) in
        '(e2, obs) ← run_loop e1 instanceId;
        Some (e2, done :: obs, Returned ())
      else Some (e, [], Threw InvalidState)
  | _, _ => Some (e, [], Threw InvalidState)
  end.

(** [getWorkflowState], [getPendingHumanInput] *)
Definition getWorkflowState (e : Engine) (instanceId : string) : option WorkflowState :=
  states e !! instanceId.

Definition getPendingHumanInput (e : Engine) (instanceId : string) : option HumanInput :=
  pendingHumanInputs e !! instanceId.

(** *** Histories *)

(** The successive observable states of one engine object, oldest
    first: the state after each public call, and inside a call the state
    at the creation of the instance and at every emitted event. In the
    source every assignment to [status] is followed by an [emitEvent]
    before the next assignment, with no [await] in between, so that no
    value of [status] is missing from a history. A call that throws
    changes nothing and adds no state. *)
Inductive history : list Engine → Prop :=
  | history_new : history [new_engine]
  | history_register h e workflow :
      history h → last h = Some e →
      history (h ++ [registerWorkflow workflow e])
  | history_start h e workflowId instanceId initialData e' obs :
      history h → last h = Some e →
      (* [uuidv4()] yields an identifier that is not in use *)
      states e !! instanceId = None →
      startWorkflow e workflowId instanceId initialData
        = Some (e', obs, Returned instanceId) →
      history (h ++ put_state instanceId
                      (initial_state instanceId workflowId initialData) e
                 :: obs.*2)
  | history_input h e instanceId input e' obs :
      history h → last h = Some e →
      provideHumanInput e instanceId input
        = Some (e', obs, Returned ()) →
      history (h ++ obs.*2).


(** The engine after a call, the events emitted during it and the error
    it threw, if any. *)
Definition invoke (e : Engine) (c : Call)
  : option (Engine * list Obs * option EngineError) :=
  match c with
  | call_registerWorkflow workflow => Some (registerWorkflow workflow e, [], None)
  | call_startWorkflow workflowId uuid initialData =>
      '(e', obs, r) ← startWorkflow e workflowId uuid initialData;
      Some (e', obs, thrown r)
  | call_provideHumanInput instanceId input =>
      '(e', obs, r) ← provideHumanInput e instanceId input;
      Some (e', obs, thrown r)
  end.

(** The observable states a call adds to a history that ends in [e]. *)
Definition shown (e : Engine) (c : Call) : list Engine :=
  match c with
  | call_registerWorkflow workflow => [registerWorkflow workflow e]
  | call_startWorkflow workflowId uuid initialData =>
      if decide (states e !! uuid = None) then
        match startWorkflow e workflowId uuid initialData with
        | Some (_, obs, Returned _) =>
            put_state uuid (initial_state uuid workflowId initialData) e :: obs.*2
        | _ => []
        end
      else []
  | call_provideHumanInput instanceId input =>
      match provideHumanInput e instanceId input with
      | Some (_, obs, Returned _) => obs.*2
      | _ => []
      end
  end.

Fixpoint replay_from (h : list Engine) (calls : list Call) : list Engine :=
  match calls with
  | [] => h
  | c :: calls' =>
      match last h with
      | Some e => replay_from (h ++ shown e c) calls'
      | None => h
      end
  end.

(** The history of a fresh engine object that receives [calls]. *)
Definition replay (calls : list Call) : list Engine :=
  replay_from [new_engine] calls.


End Engine.

(** *** Notions used by the properties *)

(** The selection criterion in the words of the specification: the step
    is not completed and every declared dependency is. *)
Definition qualifies (state : WorkflowState) (step : WorkflowStep) : Prop :=
  (step_id step ∉ completedSteps state) ∧
  ∀ dep, dep ∈ default [] (dependencies step) → dep ∈ completedSteps state.

(** Steps of the definition that are not completed yet. *)
Definition remaining (workflow : WorkflowDefinition) (state : WorkflowState) : nat :=
  length (filter (λ s, includes (completedSteps state) (step_id s) = false)
                 (steps workflow)).

(** The moves of [status] the engine performs. *)
Inductive transition : Status → Status → Prop :=
  | start_step : transition pending running
  | nothing_to_run : transition pending completed
  | pause : transition running paused
  | resume : transition paused running
  | complete : transition running completed
  | fail : transition running failed.

(** Successive elements of a list are related. *)
Inductive chain {A : Type} (R : A → A → Prop) : list A → Prop :=
  | chain_nil : chain R []
  | chain_one x : chain R [x]
  | chain_cons x y l : R x y → chain R (y :: l) → chain R (x :: y :: l).

(** One move of the engine on behalf of instance [instanceId]. *)
Definition instance_move (instanceId : string) (e1 e2 : Engine) : Prop :=
  workflows e2 = workflows e1 ∧
  (∀ other, other ≠ instanceId →
     states e2 !! other = states e1 !! other ∧
     pendingHumanInputs e2 !! other = pendingHumanInputs e1 !! other) ∧
  ∃ st1 st2,
    states e1 !! instanceId = Some st1 ∧ states e2 !! instanceId = Some st2 ∧
    workflowId st2 = workflowId st1 ∧
    (status st2 = status st1 ∨ transition (status st1) (status st2)) ∧
    (is_Some (pendingHumanInputs e2 !! instanceId) ↔ status st2 = paused).

(** Successive observable states of the engine. *)
Inductive engine_step : Engine → Engine → Prop :=
  | es_register e workflow : engine_step e (registerWorkflow workflow e)
  | es_create e instanceId st :
      states e !! instanceId = None → status st = pending →
      engine_step e (put_state instanceId st e)
  | es_move e1 e2 instanceId :
      instance_move instanceId e1 e2 → engine_step e1 e2.

(** An input is pending for exactly the paused instances. *)
Definition consistent (e : Engine) : Prop :=
  ∀ instanceId,
    is_Some (pendingHumanInputs e !! instanceId) ↔
    ∃ st, states e !! instanceId = Some st ∧ status st = paused.

(** The status of an instance in an engine, if the instance exists. *)
Definition status_of (e : Engine) (instanceId : string) : option Status :=
  status <$> states e !! instanceId.

(** What can happen to the status of one instance between two
    successive observable states, when its status moves by [T]: the
    instance does not exist yet, it is created in status pending, its
    status stays, or its status makes a move of [T]. *)
Inductive lifecycle (T : Status → Status → Prop)
  : option Status → option Status → Prop :=
  | lc_absent : lifecycle T None None
  | lc_created : lifecycle T None (Some pending)
  | lc_same s : lifecycle T (Some s) (Some s)
  | lc_move s1 s2 : T s1 s2 → lifecycle T (Some s1) (Some s2).

(** The chain of the specification: the moves of [transition] without
    the direct move from pending to completed. *)
Inductive transition_claimed : Status → Status → Prop :=
  | tc_start : transition_claimed pending running
  | tc_pause : transition_claimed running paused
  | tc_resume : transition_claimed paused running
  | tc_complete : transition_claimed running completed
  | tc_fail : transition_claimed running failed.

Definition terminal (s : Status) : Prop := s = completed ∨ s = failed.

(** The execution of a step fails with an error description: it returns
    an unsuccessful result that asks for no human input, or it throws. *)
Inductive fails : StepResult + Thrown → option string → Prop :=
  | fails_returned result :
      success result = false → requiresHuman result = None →
      fails (inl result) (error result)
  | fails_thrown t : fails (inr t) (Some (describe t)).

(** *** Example definitions *)

(** The workflow [simpleWorkflow] of the example script of the
    repository. *)
Definition simpleWorkflow : WorkflowDefinition :=
  {| wf_id := "simple-approval";
     wf_name := "Simple Approval Workflow";
     wf_description := Some "A basic workflow that requires human approval";
     steps :=
       [ {| step_id := "collect-info"; step_name := "Collect Information";
            step_type := "system"; step_config := ∅; dependencies := None |};
         {| step_id := "human-review"; step_name := "Human Review";
            step_type := "human";
            step_config :=
              {[ "prompt" := VStr
                   "Please review the collected information. Do you approve? (yes/no)";
                 "inputType" := VStr "choice";
                 "options" := VArr [VStr "yes"; VStr "no"] ]};
            dependencies := Some ["collect-info"] |};
         {| step_id := "final-step"; step_name := "Process Result";
            step_type := "system"; step_config := ∅;
            dependencies := Some ["human-review"] |} ];
     wf_metadata := None |}.

(** A definition with a step of an unknown type. *)
Definition bogusWorkflow : WorkflowDefinition :=
  {| wf_id := "with-bogus-step"; wf_name := "Unknown step type";
     wf_description := None;
     steps :=
       [ {| step_id := "first"; step_name := "First"; step_type := "system";
            step_config := ∅; dependencies := None |};
         {| step_id := "odd"; step_name := "Odd"; step_type := "bogus";
            step_config := ∅; dependencies := Some ["first"] |} ];
     wf_metadata := None |}.

(** A definition whose two steps wait for each other. *)
Definition cyclicWorkflow : WorkflowDefinition :=
  {| wf_id := "cycle"; wf_name := "Two steps in a cycle";
     wf_description := None;
     steps :=
       [ {| step_id := "a"; step_name := "A"; step_type := "system";
            step_config := ∅; dependencies := Some ["b"] |};
         {| step_id := "b"; step_name := "B"; step_type := "system";
            step_config := ∅; dependencies := Some ["a"] |} ];
     wf_metadata := None |}.

(** A definition with one step of a custom type, for an engine subclass
    whose [executeStep] reports a failed check and asks a person. *)
Definition reviewWorkflow : WorkflowDefinition :=
  {| wf_id := "review"; wf_name := "Checked content";
     wf_description := None;
     steps :=
       [ {| step_id := "quality-check"; step_name := "Quality Assessment";
            step_type := "quality_check"; step_config := ∅;
            dependencies := None |} ];
     wf_metadata := None |}.

Definition executeStep_review (step : WorkflowStep) (state : WorkflowState)
  : StepResult + Thrown :=
  if String.eqb (step_type step) "quality_check" then
    inl {| sr_stepId := step_id step; success := false; data := VUndefined;
           error := Some "quality below threshold";
           requiresHuman := Some
             {| hi_stepId := step_id step; hi_prompt := VStr "Review needed?";
                hi_inputType := VStr "choice";
                hi_options := VArr [VStr "approve_anyway"; VStr "reject"];
                hi_metadata := VUndefined |} |}
  else executeStep_default step state.

(** Calls on a fresh engine: the approval workflow with its answer, and
    the start of the cyclic definition. *)
Definition approval_calls : list Call :=
  [ call_registerWorkflow simpleWorkflow;
    call_startWorkflow "simple-approval" "i1"
      (Some {[ "requestData" := VStr "Sample data for review" ]});
    call_provideHumanInput "i1" (VStr "yes") ].

Definition cycle_calls : list Call :=
  [ call_registerWorkflow cyclicWorkflow;
    call_startWorkflow "cycle" "i1" None ].

(** The data of the emitted events, in order, and the engine after the
    call. *)
Definition events_of {A} (r : option (Engine * list Obs * A)) : list EventData :=
  match r with
  | Some (_, obs, _) => (λ o : Obs, ev_data o.1) <$> obs
  | None => []
  end.

Definition engine_of {A} (r : option (Engine * list Obs * A)) : Engine :=
  match r with
  | Some (e, _, _) => e
  | None => new_engine
  end.

(** *** The framework ([core/HITLFramework.ts]) *)

(** A call of a method of the [HITLInterface] given to the framework. *)
Inductive HITLCall :=
  | requestInput (workflowId : string) (input : HumanInput)
  | notifyWorkflowComplete (workflowId : string) (result : WorkflowState)
  | notifyWorkflowError (workflowId : string) (error : option string).

(** The framework owns an engine; [hitlInterface] tells whether an
    interface was given to the constructor. *)
Record HITLFramework := {
  engine : Engine;
  hitlInterface : bool
}.

(** The constructor. *)
Definition new_framework (hitlInterface : bool) : HITLFramework :=
  {| engine := new_engine; hitlInterface := hitlInterface |}.

(** The three listeners that [setupEventHandlers] puts on the engine:
    what one event makes them call. *)
Definition on_event (hitlInterface : bool) (event : WorkflowEvent) : list HITLCall :=
  if hitlInterface then
    match ev_data event with
    | human_input_required humanInput _ =>
        [requestInput (ev_workflowId event) humanInput]
    | workflow_completed state =>
        [notifyWorkflowComplete (ev_workflowId event) state]
    | workflow_failed _ error =>
        [notifyWorkflowError (ev_workflowId event) error]
    | step_started _ _ | step_completed _ _ => []
    end
  else [].

Definition on_events (hitlInterface : bool) (obs : list Obs) : list HITLCall :=
  obs ≫= (λ o, on_event hitlInterface o.1).

Section Framework.
Variable executeStep : WorkflowStep → WorkflowState → StepResult + Thrown.

(** [HITLFramework.registerWorkflow] *)
Definition framework_registerWorkflow (workflow : WorkflowDefinition)
    (fw : HITLFramework) : HITLFramework :=
  {| engine := registerWorkflow workflow (engine fw);
     hitlInterface := hitlInterface fw |}.

(** [HITLFramework.startWorkflow]: the framework after the call, the
    calls received by the interface and the completion of the call. *)
Definition framework_startWorkflow (fw : HITLFramework)
    (workflowId instanceId : string) (initialData : option (gmap string Value))
  : option (HITLFramework * list HITLCall * Completion string) :=
  '(e, obs, r) ← startWorkflow executeStep (engine fw) workflowId instanceId initialData;
  Some ({| engine := e; hitlInterface := hitlInterface fw |},
        on_events (hitlInterface fw) obs, r).

(** [HITLFramework.provideInput], also the listener of the event
    ['human_input'] of the interface. *)
Definition framework_provideInput (fw : HITLFramework)
    (instanceId : string) (input : Value)
  : option (HITLFramework * list HITLCall * Completion unit) :=
  '(e, obs, r) ← provideHumanInput executeStep (engine fw) instanceId input;
  Some ({| engine := e; hitlInterface := hitlInterface fw |},
        on_events (hitlInterface fw) obs, r).

(** [HITLFramework.getWorkflowState], [HITLFramework.getPendingInput] *)
Definition framework_getWorkflowState (fw : HITLFramework) (instanceId : string)
  : option WorkflowState :=
  getWorkflowState (engine fw) instanceId.

Definition framework_getPendingInput (fw : HITLFramework) (instanceId : string)
  : option HumanInput :=
  getPendingHumanInput (engine fw) instanceId.

End Framework.

(** *** Further notions used by the properties *)

(** [done'] is [done] followed by ids of steps of the definition, each
    of them not completed and with its dependencies completed at the
    time it was appended. *)
Inductive appends (workflow : WorkflowDefinition) : list string → list string → Prop :=
  | appends_none done : appends workflow done done
  | appends_step done step done' :
      step ∈ steps workflow →
      step_id step ∉ done →
      (∀ dep, dep ∈ default [] (dependencies step) → dep ∈ done) →
      appends workflow (done ++ [step_id step]) done' →
      appends workflow done done'.

(** The events after which the loop goes on. *)
Definition goes_on_after (d : EventData) : bool :=
  match d with
  | step_started _ _ | step_completed _ _ => true
  | human_input_required _ _ | workflow_completed _ | workflow_failed _ _ => false
  end.

(** An [executeStep] whose human-input requests carry the id of the
    step that asks, as the default one does. *)
Definition own_requests
    (executeStep : WorkflowStep → WorkflowState → StepResult + Thrown) : Prop :=
  ∀ step state result h,
    executeStep step state = inl result → requiresHuman result = Some h →
    hi_stepId h = step_id step.

(** The instance a call works on. *)
Definition call_instance (c : Call) : option string :=
  match c with
  | call_registerWorkflow _ => None
  | call_startWorkflow _ uuid _ => Some uuid
  | call_provideHumanInput instanceId _ => Some instanceId
  end.

(** No step is completed twice, and the step that waits for an answer
    is not completed. *)
Definition no_repeats (e : Engine) : Prop :=
  ∀ instanceId state,
    states e !! instanceId = Some state →
    NoDup (completedSteps state) ∧
    ∀ h, pendingHumanInputs e !! instanceId = Some h →
         hi_stepId h ∉ completedSteps state.

(** The engine with the approval workflow registered, the engine in
    which its instance waits for the review, and the state and the
    request of that instance. *)
Definition approval_engine : Engine := registerWorkflow simpleWorkflow new_engine.

Definition paused_engine : Engine :=
  default new_engine (last (replay executeStep_default (take 2 approval_calls))).

Definition paused_state : WorkflowState :=
  default (initial_state "i1" "simple-approval" None) (states paused_engine !! "i1").

Definition paused_request : HumanInput :=
  default {| hi_stepId := ""; hi_prompt := VUndefined; hi_inputType := VUndefined;
             hi_options := VUndefined; hi_metadata := VUndefined |}
          (pendingHumanInputs paused_engine !! "i1").

(** The ids of the steps that the events of a call report as
    completed, in the order of the events. *)
Definition completed_id (event : WorkflowEvent) : option string :=
  match ev_data event with
  | step_completed stepId _ => Some stepId
  | _ => None
  end.

Definition completions (obs : list Obs) : list string :=
  omap (λ o : Obs, completed_id o.1) obs.

End Workflow.
(** ** The LLM dispatch manager *)

Module LLM.

(** *** Types ([quality/llm/types.ts], [LLMProviderFactory.ts]) *)

(** ['openai' | 'anthropic' | 'gemini'] *)
Inductive LLMProviderType := openai | anthropic | gemini.

#[global] Instance LLMProviderType_eq_dec : EqDecision LLMProviderType.
Proof. solve_decision. Defined.

(** The string that a provider type is. *)
Definition type_name (t : LLMProviderType) : string :=
  match t with
  | openai => "openai"
  | anthropic => "anthropic"
  | gemini => "gemini"
  end.

Inductive Role := system | user | assistant.

#[global] Instance Role_eq_dec : EqDecision Role.
Proof. solve_decision. Defined.

Record LLMMessage := {
  msg_role : Role;
  msg_content : string
}.

(** Fields of type [number?]. The adapters only test them for
    [null]/[undefined] and pass them on. *)
Record LLMOptions := {
  opt_temperature : option Q;
  opt_maxTokens : option Q;
  opt_model : option string;
  opt_timeout : option Q
}.

Definition no_options : LLMOptions :=
  {| opt_temperature := None; opt_maxTokens := None; opt_model := None;
     opt_timeout := None |}.

Record Usage := {
  promptTokens : N;
  completionTokens : N;
  totalTokens : N
}.

Record LLMResponse := {
  resp_content : string;
  resp_usage : option Usage;
  resp_model : string;
  resp_provider : string
}.

Record LLMProviderConfig := {
  apiKey : string;
  baseUrl : option string;
  defaultModel : option string;
  defaultOptions : option LLMOptions
}.

(** *** Provider adapters *)

(** An instance of a subclass of the abstract class [BaseLLMProvider]:
    its fields and its two abstract or overridable methods. A provider
    call that fails throws an [Error]; [inr] carries its message. The
    answer of a provider to a request is a function of the request. *)
Record BaseLLMProvider := {
  name : string;
  supportedModels : list string;
  config : LLMProviderConfig;
  chat : list LLMMessage → option LLMOptions → LLMResponse + string;
  isHealthy : bool
}.

(** [a || b] on optional strings: the empty string is falsy. *)
Definition or_string (a : option string) (b : option string) : option string :=
  match a with
  | Some s => if String.eqb s "" then b else Some s
  | None => b
  end.

(** [BaseLLMProvider.getModel]; the lists of supported models of the
    adapters are constants that are not empty. *)
Definition getModel (supportedModels : list string) (config : LLMProviderConfig)
    (options : option LLMOptions) : string :=
  default (hd "" supportedModels)
    (or_string (options ≫= opt_model) (or_string (defaultModel config) None)).

(** [BaseLLMProvider.prompt] *)
Definition provider_prompt (p : BaseLLMProvider) (prompt : string)
    (options : option LLMOptions) : LLMResponse + string :=
  chat p [{| msg_role := user; msg_content := prompt |}] options.

(** [BaseLLMProvider.isHealthy], for subclasses that do not override it. *)
Definition isHealthy_base
    (chat : list LLMMessage → option LLMOptions → LLMResponse + string) : bool :=
  match chat [{| msg_role := user; msg_content := "Hello" |}]
             (Some {| opt_temperature := Some 0%Q; opt_maxTokens := Some (5 # 1)%Q;
                      opt_model := None; opt_timeout := None |}) with
  | inl _ => true
  | inr _ => false
  end.

(** *** The Gemini adapter ([providers/GeminiProvider.ts]) *)

(** One entry of the chat history: [{ role, parts: [{ text }] }]. *)
Record GeminiContent := {
  gc_role : string;
  gc_parts : list string
}.

Record GenerationConfig := {
  gen_temperature : Q;
  gen_maxOutputTokens : Q
}.

(** What the adapter hands to the SDK: [getGenerativeModel({ model })],
    [startChat({ history, generationConfig })] and
    [sendMessage(message)]. *)
Record GeminiRequest := {
  req_model : string;
  req_history : list GeminiContent;
  req_generationConfig : GenerationConfig;
  req_message : string
}.

Record UsageMetadata := {
  promptTokenCount : option N;
  candidatesTokenCount : option N;
  totalTokenCount : option N
}.

(** [result.response]: [text()] and [usageMetadata]. *)
Record GeminiResult := {
  res_text : string;
  res_usageMetadata : option UsageMetadata
}.

(** The module [@google/generative-ai], as far as the adapter uses it,
    for a client made with an API key. *)
Record GeminiSDK := {
  sendMessage : string → GeminiRequest → GeminiResult + Thrown;
  generateContent : string → string → string → unit + Thrown
}.

Definition gemini_name : string := "gemini".

Definition gemini_supportedModels : list string :=
  ["gemini-1.5-pro"; "gemini-1.5-flash"; "gemini-1.0-pro"].

(** The constructor: [{ defaultModel, baseUrl, ...config }]. *)
Definition gemini_config (config : LLMProviderConfig) : LLMProviderConfig :=
  {| apiKey := apiKey config;
     baseUrl := Some (default "https://generativelanguage.googleapis.com/v1beta"
                        (baseUrl config));
     defaultModel := Some (default "gemini-1.5-pro" (defaultModel config));
     defaultOptions := defaultOptions config |}.

(** The loop of [chat] over the messages: the history built so far and
    the last user message not yet moved into it. *)
Definition convert_step (acc : list GeminiContent * string) (message : LLMMessage)
  : list GeminiContent * string :=
  let '(history, lastMessage) := acc in
  match msg_role message with
  | system =>
      (* Gemini doesn't have system role, prepend to first user message *)
      (history, lastMessage)
  | user => (history, msg_content message)
  | assistant =>
      let history1 :=
        if String.eqb lastMessage "" then history
        else history ++ [{| gc_role := "user"; gc_parts := [lastMessage] |}] in
      (history1 ++ [{| gc_role := "model"; gc_parts := [msg_content message] |}], "")
  end.

Definition convert (messages : list LLMMessage) : list GeminiContent * string :=
  foldl convert_step ([], "") messages.

(** [options.temperature ?? this.config.defaultOptions?.temperature ?? 0.1]
    and the same for the token limit. *)
Definition gemini_generationConfig (config : LLMProviderConfig) (options : LLMOptions)
  : GenerationConfig :=
  {| gen_temperature :=
       default (default (1 # 10)%Q (defaultOptions config ≫= opt_temperature))
               (opt_temperature options);
     gen_maxOutputTokens :=
       default (default (1000 # 1)%Q (defaultOptions config ≫= opt_maxTokens))
               (opt_maxTokens options) |}.

(** The argument of [sendMessage]:
    [lastMessage || messages[messages.length - 1].content]; reading
    [content] of [undefined] throws a [TypeError]. *)
Definition gemini_message (messages : list LLMMessage) : string + Thrown :=
  let lastMessage := (convert messages).2 in
  if String.eqb lastMessage "" then
    match last messages with
    | Some m => inl (msg_content m)
    | None => inr (ThrownError "Cannot read properties of undefined (reading 'content')")
    end
  else inl lastMessage.

(** The request the adapter builds from the messages and the options. *)
Definition gemini_request (config : LLMProviderConfig) (messages : list LLMMessage)
    (options : LLMOptions) : GeminiRequest + Thrown :=
  match gemini_message messages with
  | inl message =>
      inl {| req_model := getModel gemini_supportedModels config (Some options);
             req_history := (convert messages).1;
             req_generationConfig := gemini_generationConfig config options;
             req_message := message |}
  | inr t => inr t
  end.

(** [GeminiProvider.chat]; [sdk] is the result of [importGemini()]. *)
Definition gemini_chat (sdk : option GeminiSDK) (config : LLMProviderConfig)
    (messages : list LLMMessage) (options : option LLMOptions)
  : LLMResponse + string :=
  match sdk with
  | None =>
      inr "Google Generative AI SDK not installed. To use Gemini provider, run: npm install @google/generative-ai"
  | Some sdk =>
      let options := default no_options options in
      let model := getModel gemini_supportedModels config (Some options) in
      let outcome :=
        match gemini_request config messages options with
        | inl request => sendMessage sdk (apiKey config) request
        | inr t => inr t
        end in
      match outcome with
      | inl response =>
          inl {| resp_content := res_text response;
                 resp_usage := Some
                   {| promptTokens :=
                        default 0%N (res_usageMetadata response ≫= promptTokenCount);
                      completionTokens :=
                        default 0%N (res_usageMetadata response ≫= candidatesTokenCount);
                      totalTokens :=
                        default 0%N (res_usageMetadata response ≫= totalTokenCount) |};
                 resp_model := model;
                 resp_provider := gemini_name |}
      | inr t => inr ("Gemini API error: " +:+ describe t)
      end
  end.

(** [GeminiProvider.isHealthy] *)
Definition gemini_isHealthy (sdk : option GeminiSDK) (config : LLMProviderConfig) : bool :=
  match sdk with
  | None => false
  | Some sdk =>
      match generateContent sdk (apiKey config)
              (getModel gemini_supportedModels config None) "Hello" with
      | inl _ => true
      | inr _ => false
      end
  end.

(** [new GeminiProvider(config)] *)
Definition GeminiProvider (sdk : option GeminiSDK) (config : LLMProviderConfig)
  : BaseLLMProvider :=
  let config := gemini_config config in
  {| name := gemini_name;
     supportedModels := gemini_supportedModels;
     config := config;
     chat := gemini_chat sdk config;
     isHealthy := gemini_isHealthy sdk config |}.

(** *** The OpenAI adapter ([providers/OpenAIProvider.ts]) *)

(** The argument of [chat.completions.create]. *)
Record OpenAIRequest := {
  oreq_model : string;
  oreq_messages : list LLMMessage;
  oreq_temperature : Q;
  oreq_max_tokens : Q
}.

(** Of the completion: [choices[0]?.message?.content], [usage] and
    [model]. *)
Record OpenAIResult := {
  ores_content : option string;
  ores_prompt_tokens : option N;
  ores_completion_tokens : option N;
  ores_total_tokens : option N;
  ores_model : string
}.

(** The module [openai], for a client made with an API key and a base
    URL. *)
Record OpenAISDK := {
  completions_create :
    string → option string → OpenAIRequest → OpenAIResult + Thrown
}.

Definition openai_name : string := "openai".

Definition openai_supportedModels : list string :=
  ["gpt-4"; "gpt-4-turbo"; "gpt-4o"; "gpt-3.5-turbo"; "gpt-3.5-turbo-16k"].

(** The constructor: [{ defaultModel: 'gpt-4', ...config }]. *)
Definition openai_config (config : LLMProviderConfig) : LLMProviderConfig :=
  {| apiKey := apiKey config;
     baseUrl := baseUrl config;
     defaultModel := Some (default "gpt-4" (defaultModel config));
     defaultOptions := defaultOptions config |}.

(** [options.x ?? this.config.defaultOptions?.x ?? fallback] *)
Definition pick (config : LLMProviderConfig) (field : LLMOptions → option Q)
    (options : LLMOptions) (fallback : Q) : Q :=
  default (default fallback (defaultOptions config ≫= field)) (field options).

(** The messages are passed with their roles, the system role
    included. *)
Definition openai_request (config : LLMProviderConfig) (messages : list LLMMessage)
    (options : LLMOptions) : OpenAIRequest :=
  {| oreq_model := getModel openai_supportedModels config (Some options);
     oreq_messages :=
       (λ msg, {| msg_role := msg_role msg; msg_content := msg_content msg |})
         <$> messages;
     oreq_temperature := pick config opt_temperature options (1 # 10)%Q;
     oreq_max_tokens := pick config opt_maxTokens options (1000 # 1)%Q |}.

(** [OpenAIProvider.chat]; [sdk] is the result of [importOpenAI()]. *)
Definition openai_chat (sdk : option OpenAISDK) (config : LLMProviderConfig)
    (messages : list LLMMessage) (options : option LLMOptions)
  : LLMResponse + string :=
  match sdk with
  | None => inr "OpenAI SDK not installed. To use OpenAI provider, run: npm install openai"
  | Some sdk =>
      let options := default no_options options in
      match completions_create sdk (apiKey config) (baseUrl config)
              (openai_request config messages options) with
      | inl response =>
          inl {| resp_content := default "" (ores_content response);
                 resp_usage := Some
                   {| promptTokens := default 0%N (ores_prompt_tokens response);
                      completionTokens := default 0%N (ores_completion_tokens response);
                      totalTokens := default 0%N (ores_total_tokens response) |};
                 resp_model := ores_model response;
                 resp_provider := openai_name |}
      | inr t => inr ("OpenAI API error: " +:+ describe t)
      end
  end.

(** [OpenAIProvider.isHealthy] *)
Definition openai_isHealthy (sdk : option OpenAISDK) (config : LLMProviderConfig) : bool :=
  match sdk with
  | None => false
  | Some sdk =>
      match completions_create sdk (apiKey config) (baseUrl config)
              {| oreq_model := getModel openai_supportedModels config None;
                 oreq_messages := [{| msg_role := user; msg_content := "Hello" |}];
                 oreq_temperature := 0%Q;
                 oreq_max_tokens := (5 # 1)%Q |} with
      | inl _ => true
      | inr _ => false
      end
  end.

(** [new OpenAIProvider(config)] *)
Definition OpenAIProvider (sdk : option OpenAISDK) (config : LLMProviderConfig)
  : BaseLLMProvider :=
  let config := openai_config config in
  {| name := openai_name;
     supportedModels := openai_supportedModels;
     config := config;
     chat := openai_chat sdk config;
     isHealthy := openai_isHealthy sdk config |}.

(** *** The Anthropic adapter ([providers/AnthropicProvider.ts]) *)

(** The argument of [messages.create]. *)
Record AnthropicRequest := {
  areq_model : string;
  areq_messages : list LLMMessage;
  areq_system : option string;
  areq_temperature : option Q;
  areq_max_tokens : Q
}.

(** Of the message returned: [content[0]?.text], [usage] and [model]. *)
Record AnthropicResult := {
  ares_text : option string;
  ares_input_tokens : option N;
  ares_output_tokens : option N;
  ares_model : string
}.

(** The module [@anthropic-ai/sdk], for a client made with an API key
    and a base URL. *)
Record AnthropicSDK := {
  messages_create :
    string → option string → AnthropicRequest → AnthropicResult + Thrown
}.

Definition anthropic_name : string := "anthropic".

Definition anthropic_supportedModels : list string :=
  ["claude-3-5-sonnet-20241022"; "claude-3-5-haiku-20241022";
   "claude-3-opus-20240229"; "claude-3-sonnet-20240229";
   "claude-3-haiku-20240307"].

(** The constructor: [{ defaultModel, ...config }]. *)
Definition anthropic_config (config : LLMProviderConfig) : LLMProviderConfig :=
  {| apiKey := apiKey config;
     baseUrl := baseUrl config;
     defaultModel := Some (default "claude-3-5-sonnet-20241022" (defaultModel config));
     defaultOptions := defaultOptions config |}.

(** [systemMessage] after the [filter]: the content of the last system
    message, or the empty string. *)
Definition anthropic_systemMessage (messages : list LLMMessage) : string :=
  foldl (λ systemMessage msg,
           if decide (msg_role msg = system) then msg_content msg
           else systemMessage)
        "" messages.

(** The system text goes into the field [system] of the request, the
    other messages into [messages]. *)
Definition anthropic_request (config : LLMProviderConfig) (messages : list LLMMessage)
    (options : LLMOptions) : AnthropicRequest :=
  {| areq_model := getModel anthropic_supportedModels config (Some options);
     areq_messages := filter (λ msg, msg_role msg ≠ system) messages;
     areq_system := or_string (Some (anthropic_systemMessage messages)) None;
     areq_temperature := Some (pick config opt_temperature options (1 # 10)%Q);
     areq_max_tokens := pick config opt_maxTokens options (1000 # 1)%Q |}.

(** [AnthropicProvider.chat]; [sdk] is the result of
    [importAnthropic()]. *)
Definition anthropic_chat (sdk : option AnthropicSDK) (config : LLMProviderConfig)
    (messages : list LLMMessage) (options : option LLMOptions)
  : LLMResponse + string :=
  match sdk with
  | None =>
      inr "Anthropic SDK not installed. To use Anthropic provider, run: npm install @anthropic-ai/sdk"
  | Some sdk =>
      let options := default no_options options in
      match messages_create sdk (apiKey config) (baseUrl config)
              (anthropic_request config messages options) with
      | inl response =>
          inl {| resp_content := default "" (ares_text response);
                 resp_usage := Some
                   {| promptTokens := default 0%N (ares_input_tokens response);
                      completionTokens := default 0%N (ares_output_tokens response);
                      totalTokens :=
                        (default 0 (ares_input_tokens response)
                         + default 0 (ares_output_tokens response))%N |};
                 resp_model := ares_model response;
                 resp_provider := anthropic_name |}
      | inr t => inr ("Anthropic API error: " +:+ describe t)
      end
  end.

(** [AnthropicProvider.isHealthy] *)
Definition anthropic_isHealthy (sdk : option AnthropicSDK)
    (config : LLMProviderConfig) : bool :=
  match sdk with
  | None => false
  | Some sdk =>
      match messages_create sdk (apiKey config) (baseUrl config)
              {| areq_model := getModel anthropic_supportedModels config None;
                 areq_messages := [{| msg_role := user; msg_content := "Hello" |}];
                 areq_system := None;
                 areq_temperature := None;
                 areq_max_tokens := (5 # 1)%Q |} with
      | inl _ => true
      | inr _ => false
      end
  end.

(** [new AnthropicProvider(config)] *)
Definition AnthropicProvider (sdk : option AnthropicSDK) (config : LLMProviderConfig)
  : BaseLLMProvider :=
  let config := anthropic_config config in
  {| name := anthropic_name;
     supportedModels := anthropic_supportedModels;
     config := config;
     chat := anthropic_chat sdk config;
     isHealthy := anthropic_isHealthy sdk config |}.

(** *** [Map<LLMProviderType, BaseLLMProvider>], in insertion order *)

Definition ProviderMap : Type := list (LLMProviderType * BaseLLMProvider).

Fixpoint Map_get (m : ProviderMap) (k : LLMProviderType) : option BaseLLMProvider :=
  match m with
  | [] => None
  | (k', v) :: m' => if decide (k' = k) then Some v else Map_get m' k
  end.

Definition Map_has (m : ProviderMap) (k : LLMProviderType) : bool :=
  bool_decide (is_Some (Map_get m k)).

Fixpoint Map_set (m : ProviderMap) (k : LLMProviderType) (v : BaseLLMProvider)
  : ProviderMap :=
  match m with
  | [] => [(k, v)]
  | (k', v') :: m' =>
      if decide (k' = k) then (k, v) :: m' else (k', v') :: Map_set m' k v
  end.

Definition Map_keys (m : ProviderMap) : list LLMProviderType := m.*1.

(** *** The provider factory ([LLMProviderFactory.ts]) *)

(** A registered provider class: its constructor and its optional
    static [isAvailable]. *)
Record LLMProviderConstructor := {
  construct : LLMProviderConfig → BaseLLMProvider;
  isAvailable : option bool
}.

(** The static registry after [initializeProviders]. *)
Definition Factory : Type := list (LLMProviderType * LLMProviderConstructor).

Fixpoint Factory_get (f : Factory) (k : LLMProviderType) : option LLMProviderConstructor :=
  match f with
  | [] => None
  | (k', c) :: f' => if decide (k' = k) then Some c else Factory_get f' k
  end.

(** [checkProviderAvailability]; the cache only stores this value. *)
Definition checkProviderAvailability (f : Factory) (type : LLMProviderType) : bool :=
  match Factory_get f type with
  | None => false
  | Some c => default true (isAvailable c)
  end.

(** [getAvailableProvidersAsync] *)
Definition getAvailableProvidersAsync (f : Factory) : list LLMProviderType :=
  filter (λ t, checkProviderAvailability f t = true) f.*1.

(** [createProvider] *)
Definition createProvider (f : Factory) (type : LLMProviderType)
    (config : LLMProviderConfig) : BaseLLMProvider + string :=
  match Factory_get f type with
  | None =>
      inr ("Provider " +:+ type_name type
           +:+ " not available. Make sure the corresponding SDK is installed.")
  | Some c =>
      if default true (isAvailable c) then inl (construct c config)
      else inr ("Provider " +:+ type_name type
                +:+ " SDK not installed. Please install the required package.")
  end.

(** The registry that [initializeProviders] builds: the three adapter
    classes, each with the static [isAvailable] that reports whether
    its SDK can be imported. *)
Definition builtin_factory (o : option OpenAISDK) (a : option AnthropicSDK)
    (g : option GeminiSDK) : Factory :=
  [ (openai, {| construct := OpenAIProvider o;
                isAvailable := Some (bool_decide (is_Some o)) |});
    (anthropic, {| construct := AnthropicProvider a;
                   isAvailable := Some (bool_decide (is_Some a)) |});
    (gemini, {| construct := GeminiProvider g;
                isAvailable := Some (bool_decide (is_Some g)) |}) ].

(** *** The manager ([LLMManager.ts]) *)

Record MultiLLMConfig := {
  cfg_primaryProvider : LLMProviderType;
  cfg_fallbackProviders : option (list LLMProviderType);
  (* the entries of the object [providers], in the order of its keys *)
  cfg_providers : list (LLMProviderType * option LLMProviderConfig)
}.

(** The private fields of [LLMManager]. *)
Record LLMManager := {
  providers : ProviderMap;
  primaryProvider : LLMProviderType;
  fallbackProviders : list LLMProviderType
}.

(** Errors thrown by the methods of the manager. *)
Inductive ManagerError :=
  (* 'No LLM providers available. Please install at least one SDK: ...' *)
  | NoProvidersAvailable
  (* `All available LLM providers failed. Last error: ${error}` *)
  | AllProvidersFailed (lastError : string)
  (* 'No LLM providers available', after the loop of [chat] *)
  | NoProviderTried
  (* `Provider ${provider} is not available` *)
  | NotAvailable (provider : LLMProviderType).

(** The message of [AllProvidersFailed]: the thrown [Error] is
    interpolated into the template. *)
Definition error_message (lastError : string) : string :=
  "All available LLM providers failed. Last error: Error: " +:+ lastError.

(** Lines written by [chat] with [console.log] and [console.warn]. *)
Inductive LogLine :=
  | Attempting (providerType : LLMProviderType)
  | Successful (providerType : LLMProviderType)
  | Failed (providerType : LLMProviderType) (error : string).

(** The constructor. *)
Definition new_manager (config : MultiLLMConfig) : LLMManager :=
  {| providers := [];
     primaryProvider := cfg_primaryProvider config;
     fallbackProviders := default [] (cfg_fallbackProviders config) |}.

Definition set_provider (type : LLMProviderType) (p : BaseLLMProvider)
    (m : LLMManager) : LLMManager :=
  {| providers := Map_set (providers m) type p;
     primaryProvider := primaryProvider m;
     fallbackProviders := fallbackProviders m |}.

Definition set_primary (type : LLMProviderType) (m : LLMManager) : LLMManager :=
  {| providers := providers m;
     primaryProvider := type;
     fallbackProviders := fallbackProviders m |}.

(** [getAvailableProviders] *)
Definition getAvailableProviders (m : LLMManager) : list LLMProviderType :=
  Map_keys (providers m).

(** The body of the [for] loop of [initialize]. *)
Definition initialize_entry (f : Factory) (available : list LLMProviderType)
    (m : LLMManager) (entry : LLMProviderType * option LLMProviderConfig)
  : LLMManager :=
  match entry with
  | (providerType, Some providerConfig) =>
      if bool_decide (providerType ∈ available) then
        match createProvider f providerType providerConfig with
        | inl provider => set_provider providerType provider m
        | inr _ => m
        end
      else m
  | (_, None) => m
  end.

(** [initialize]; the manager after the call and the error thrown, if
    any. *)
Definition initialize (f : Factory) (config : MultiLLMConfig) (m : LLMManager)
  : LLMManager * option ManagerError :=
  let available := getAvailableProvidersAsync f in
  let m1 := foldl (initialize_entry f available) m (cfg_providers config) in
  if bool_decide (length (providers m1) = 0) then (m1, Some NoProvidersAvailable)
  else if Map_has (providers m1) (primaryProvider m1) then (m1, None)
  else
    match getAvailableProviders m1 with
    | first :: _ => (set_primary first m1, None)
    | [] => (m1, None)
    end.

(** [LLMManager.create] *)
Definition create (f : Factory) (config : MultiLLMConfig)
  : LLMManager * option ManagerError :=
  initialize f config (new_manager config).

(** [providersToTry] in [chat] *)
Definition providersToTry (m : LLMManager) : list LLMProviderType :=
  primaryProvider m
    :: filter (λ p, Map_has (providers m) p = true) (fallbackProviders m).

(** The [for] loop of [chat] over the rest [toTry] of [providersToTry];
    [lastType] is [providersToTry[providersToTry.length - 1]]. The loop
    assigns to no field of the manager, which it takes and returns. *)
Fixpoint chat_loop (lastType : option LLMProviderType)
    (toTry : list LLMProviderType) (m : LLMManager)
    (messages : list LLMMessage) (options : option LLMOptions)
  : LLMManager * list LogLine * (LLMResponse + ManagerError) :=
  match toTry with
  | [] => (m, [], inr NoProviderTried)
  | providerType :: rest =>
      match Map_get (providers m) providerType with
      | None => chat_loop lastType rest m messages options
      | Some provider =>
          match chat provider messages options with
          | inl response =>
              (m, [Attempting providerType; Successful providerType], inl response)
          | inr error =>
              if decide (Some providerType = lastType) then
                (m, [Attempting providerType; Failed providerType error],
                 inr (AllProvidersFailed error))
              else
                let '(m', log, r) := chat_loop lastType rest m messages options in
                (m', Attempting providerType :: Failed providerType error :: log, r)
          end
      end
  end.

(** [chat] *)
Definition manager_chat (m : LLMManager) (messages : list LLMMessage)
    (options : option LLMOptions)
  : LLMManager * list LogLine * (LLMResponse + ManagerError) :=
  let toTry := providersToTry m in
  chat_loop (last toTry) toTry m messages options.

(** [prompt] *)
Definition manager_prompt (m : LLMManager) (prompt : string)
    (options : option LLMOptions)
  : LLMManager * list LogLine * (LLMResponse + ManagerError) :=
  manager_chat m [{| msg_role := user; msg_content := prompt |}] options.

(** [checkHealth] *)
Definition checkHealth (m : LLMManager) : LLMManager * list (LLMProviderType * bool) :=
  (m, (λ entry, (entry.1, isHealthy entry.2)) <$> providers m).

(** [switchPrimaryProvider] *)
Definition switchPrimaryProvider (provider : LLMProviderType) (m : LLMManager)
  : LLMManager * option ManagerError :=
  if Map_has (providers m) provider then (set_primary provider m, None)
  else (m, Some (NotAvailable provider)).

(** The provider types that [chat] called, in order. *)
Definition attempts (log : list LogLine) : list LLMProviderType :=
  omap (λ line, match line with Attempting p => Some p | _ => None end) log.

(** A call of a public method of the manager and the manager after
    it. *)
Inductive ManagerCall :=
  | call_initialize (f : Factory) (config : MultiLLMConfig)
  | call_chat (messages : list LLMMessage) (options : option LLMOptions)
  | call_prompt (prompt : string) (options : option LLMOptions)
  | call_checkHealth
  | call_getAvailableProviders
  | call_switchPrimaryProvider (provider : LLMProviderType).

Definition after (m : LLMManager) (c : ManagerCall) : LLMManager :=
  match c with
  | call_initialize f config => (initialize f config m).1
  | call_chat messages options => (manager_chat m messages options).1.1
  | call_prompt prompt options => (manager_prompt m prompt options).1.1
  | call_checkHealth => (checkHealth m).1
  | call_getAvailableProviders => m
  | call_switchPrimaryProvider provider => (switchPrimaryProvider provider m).1
  end.

(** *** Notions used by the properties *)

(** What [initialize] establishes: the primary provider is constructed. *)
Definition initialized (m : LLMManager) : Prop :=
  Map_has (providers m) (primaryProvider m) = true.

(** The answer of the provider constructed for a type to a request. *)
Definition answer (m : LLMManager) (messages : list LLMMessage)
    (options : option LLMOptions) (t : LLMProviderType)
  : option (LLMResponse + string) :=
  (λ p, chat p messages options) <$> Map_get (providers m) t.

(** An adapter that writes its own name into its responses, as the
    three built-in adapters do ([provider: this.name]). *)
Definition names_itself (p : BaseLLMProvider) : Prop :=
  ∀ messages options response,
    chat p messages options = inl response → resp_provider response = name p.

(** Every constructed provider is an adapter that writes its name into
    its responses, and that name is the type it is stored under. *)
Definition well_named (m : ProviderMap) : Prop :=
  Forall (λ entry, names_itself entry.2 ∧ name entry.2 = type_name entry.1) m.

(** In the loop of [chat], with [lastType] the entry compared with: the
    loop goes on after a provider that fails and is not that entry. *)
Definition goes_on (m : LLMManager) (messages : list LLMMessage)
    (options : option LLMOptions) (lastType : option LLMProviderType)
    (t : LLMProviderType) : Prop :=
  (∃ err, answer m messages options t = Some (inr err)) ∧ Some t ≠ lastType.

(** The log lines of the attempts that failed. *)
Definition failure_lines (m : LLMManager) (messages : list LLMMessage)
    (options : option LLMOptions) (tried : list LLMProviderType) : list LogLine :=
  flat_map (λ t, match answer m messages options t with
                 | Some (inr err) => [Attempting t; Failed t err]
                 | _ => []
                 end) tried.

(** The provider constructed for a type fails on a request. *)
Definition call_fails (m : LLMManager) (messages : list LLMMessage)
    (options : option LLMOptions) (t : LLMProviderType) : Prop :=
  ∃ err, answer m messages options t = Some (inr err).

(** The manager after a sequence of calls of its public methods. *)
Definition after_all (m : LLMManager) (calls : list ManagerCall) : LLMManager :=
  foldl after m calls.

(** The two kinds of entries of the Gemini chat history. *)
Definition user_entry (text : string) : GeminiContent :=
  {| gc_role := "user"; gc_parts := [text] |}.

Definition model_entry (text : string) : GeminiContent :=
  {| gc_role := "model"; gc_parts := [text] |}.

(** The texts of the entries of a history that have the role [model]. *)
Definition model_texts (history : list GeminiContent) : list string :=
  history ≫= (λ c, if decide (gc_role c = "model") then gc_parts c else []).

(** The three built-in adapter classes. *)
Inductive Adapter :=
  | OpenAI (sdk : option OpenAISDK)
  | Anthropic (sdk : option AnthropicSDK)
  | Gemini (sdk : option GeminiSDK).

Definition new_adapter (a : Adapter) (config : LLMProviderConfig) : BaseLLMProvider :=
  match a with
  | OpenAI sdk => OpenAIProvider sdk config
  | Anthropic sdk => AnthropicProvider sdk config
  | Gemini sdk => GeminiProvider sdk config
  end.

(** A string that is set and not empty: what [||] keeps. *)
Definition given (s : option string) : option string := or_string s None.

(** *** Example managers *)

Definition stub_config : LLMProviderConfig :=
  {| apiKey := "test-key"; baseUrl := None; defaultModel := None;
     defaultOptions := None |}.

(** A provider whose backend is down, and one that works. *)
Definition down (name : string) : BaseLLMProvider :=
  {| name := name; supportedModels := ["m"]; config := stub_config;
     chat := λ _ _, inr (name +:+ " API error: service unavailable");
     isHealthy := false |}.

Definition up (name : string) : BaseLLMProvider :=
  {| name := name; supportedModels := ["m"]; config := stub_config;
     chat := λ _ _, inl {| resp_content := "answer of " +:+ name;
                           resp_usage := None; resp_model := "m";
                           resp_provider := name |};
     isHealthy := true |}.

(** The primary provider is also listed as a fallback. *)
Definition manager_primary_listed : LLMManager :=
  {| providers := [(openai, down "openai"); (anthropic, up "anthropic")];
     primaryProvider := openai;
     fallbackProviders := [openai; anthropic] |}.

(** The configuration of the README - primary anthropic, fallbacks
    openai and gemini - with the Gemini backend down. *)
Definition manager_readme : LLMManager :=
  {| providers := [(openai, up "openai"); (anthropic, up "anthropic");
                   (gemini, down "gemini")];
     primaryProvider := anthropic;
     fallbackProviders := [openai; gemini] |}.

Definition hello : list LLMMessage :=
  [{| msg_role := user; msg_content := "Hello" |}].

(** A system instruction followed by a user turn. *)
Definition french_hello : list LLMMessage :=
  [{| msg_role := system; msg_content := "Answer in French." |};
   {| msg_role := user; msg_content := "Hello" |}].

(** A Gemini backend that echoes the request it receives. *)
Definition echo_sdk : GeminiSDK :=
  {| sendMessage := λ _ request,
       inl {| res_text := req_message request; res_usageMetadata := None |};
     generateContent := λ _ _ _, inl () |}.

(** An OpenAI backend that echoes the last message it receives. *)
Definition echo_openai : OpenAISDK :=
  {| completions_create := λ _ _ request,
       inl {| ores_content := msg_content <$> last (oreq_messages request);
              ores_prompt_tokens := None; ores_completion_tokens := None;
              ores_total_tokens := None; ores_model := oreq_model request |} |}.

(** The configuration of the README. *)
Definition readme_config : MultiLLMConfig :=
  {| cfg_primaryProvider := anthropic;
     cfg_fallbackProviders := Some [openai; gemini];
     cfg_providers :=
       [ (anthropic, Some {| apiKey := "anthropic-key"; baseUrl := None;
                             defaultModel := Some "claude-3-5-sonnet-20241022";
                             defaultOptions := None |});
         (openai, Some {| apiKey := "openai-key"; baseUrl := None;
                          defaultModel := Some "gpt-4"; defaultOptions := None |});
         (gemini, Some {| apiKey := "gemini-key"; baseUrl := None;
                          defaultModel := Some "gemini-1.5-pro";
                          defaultOptions := None |}) ] |}.

(** The registry when the Anthropic SDK is not installed. *)
Definition factory_without_anthropic : Factory :=
  builtin_factory (Some echo_openai) None (Some echo_sdk).

(** A conversation of two turns and a new question, in which the user
    wrote twice before the first answer. *)
Definition conversation : list LLMMessage :=
  [{| msg_role := system; msg_content := "Be brief." |};
   {| msg_role := user; msg_content := "Hi" |};
   {| msg_role := user; msg_content := "What is Rocq?" |};
   {| msg_role := assistant; msg_content := "A proof assistant." |};
   {| msg_role := system; msg_content := "Answer in French." |};
   {| msg_role := user; msg_content := "Who develops it?" |}].

End LLM.
(** * Properties of the workflow engine *)

Import Workflow.

Lemma includes_spec l x : includes l x = true ↔ x ∈ l.
Proof.
  unfold includes. rewrite existsb_exists. split.
  - intros (y & Hy & Heq). apply String.eqb_eq in Heq. subst.
    by apply list_elem_of_In.
  - intros Hx. exists x. split; [by apply list_elem_of_In|apply String.eqb_refl].
Qed.

Lemma includes_false l x : includes l x = false ↔ x ∉ l.
Proof.
  rewrite <- includes_spec. destruct (includes l x); split; congruence.
Qed.

Lemma includes_app l1 l2 x : includes (l1 ++ l2) x = includes l1 x || includes l2 x.
Proof. unfold includes. apply existsb_app. Qed.

Lemma can_run_qualifies state step :
  can_run state step = true ↔ qualifies state step.
Proof.
  unfold can_run, qualifies.
  destruct (includes (completedSteps state) (step_id step)) eqn:Hdone.
  - apply includes_spec in Hdone. split; [discriminate|]. by intros [? _].
  - apply includes_false in Hdone. destruct (dependencies step) as [deps|]; simpl.
    + rewrite forallb_forall. split.
      * intros Hall. split; [done|]. intros dep Hdep.
        apply includes_spec, Hall. by apply list_elem_of_In.
      * intros [_ Hall] dep Hdep. apply includes_spec, Hall.
        by apply list_elem_of_In.
    + split; [|done]. intros _. split; [done|]. intros dep Hdep.
      by apply elem_of_nil in Hdep.
Qed.

Lemma find_first_split {A} (f : A → bool) (l : list A) (x : A) :
  find f l = Some x ↔
  ∃ before after, l = before ++ x :: after ∧ f x = true ∧
                  Forall (λ y, f y = false) before.
Proof.
  induction l as [|a l IH]; simpl.
  - split; [discriminate|]. intros (before & after & Heq & _).
    by destruct before.
  - destruct (f a) eqn:Hfa.
    + split.
      * intros [= <-]. exists [], l. by repeat split.
      * intros (before & after & Heq & Hfx & Hbefore).
        destruct before as [|b before]; simpl in Heq.
        -- by injection Heq as -> _.
        -- injection Heq as -> _. apply Forall_cons in Hbefore as [Hb _].
           congruence.
    + rewrite IH. split.
      * intros (before & after & -> & Hfx & Hbefore).
        exists (a :: before), after. repeat split; [done|]. by constructor.
      * intros (before & after & Heq & Hfx & Hbefore).
        destruct before as [|b before]; simpl in Heq.
        -- injection Heq as -> _. congruence.
        -- injection Heq as -> ->. apply Forall_cons in Hbefore as [_ Hbefore].
           by exists before, after.
Qed.

Lemma find_none_all {A} (f : A → bool) (l : list A) :
  find f l = None ↔ Forall (λ y, f y = false) l.
Proof.
  induction l as [|a l IH]; simpl.
  - split; [by constructor|done].
  - destruct (f a) eqn:Hfa.
    + split; [discriminate|]. intros [Ha _]%Forall_cons. congruence.
    + rewrite IH. split; [by constructor|]. by intros [_ ?]%Forall_cons.
Qed.

Lemma not_can_run_not_qualifies state step :
  can_run state step = false ↔ ¬ qualifies state step.
Proof.
  rewrite <- can_run_qualifies. destruct (can_run state step); split; congruence.
Qed.

Lemma remaining_le workflow state : remaining workflow state ≤ length (steps workflow).
Proof. apply length_filter. Qed.

Lemma remaining_push_lt (l : list WorkflowStep) (done : list string) (s : WorkflowStep) :
  s ∈ l → includes done (step_id s) = false →
  length (filter (λ x, includes (done ++ [step_id s]) (step_id x) = false) l)
  < length (filter (λ x, includes done (step_id x) = false) l).
Proof.
  intros Hin Hs. induction l as [|a l IH]; [by apply elem_of_nil in Hin|].
  assert (Hle : ∀ l' : list WorkflowStep,
    length (filter (λ x, includes (done ++ [step_id s]) (step_id x) = false) l')
    ≤ length (filter (λ x, includes done (step_id x) = false) l')).
  { induction l' as [|b l' IH']; [done|]. rewrite !filter_cons.
    repeat case_decide; simpl; try lia.
    rewrite includes_app in *. destruct (includes done (step_id b)); done. }
  rewrite !filter_cons. apply elem_of_cons in Hin as [<-|Hin].
  - rewrite (decide_True (P := includes done (step_id s) = false)) by done.
    rewrite decide_False; [simpl; specialize (Hle l); lia|].
    rewrite includes_app. unfold includes at 2. simpl.
    rewrite String.eqb_refl. by destruct (includes done (step_id s)).
  - specialize (IH Hin). repeat case_decide; simpl; try lia.
    rewrite includes_app in *. destruct (includes done (step_id a)); done.
Qed.

Lemma findNextStep_Some workflow state s :
  findNextStep workflow state = Some s →
  s ∈ steps workflow ∧ includes (completedSteps state) (step_id s) = false.
Proof.
  unfold findNextStep. intros Hfind. apply find_some in Hfind as [Hin Hrun].
  split; [by apply list_elem_of_In|].
  unfold can_run in Hrun. by destruct (includes _ _).
Qed.

Section Termination.
Variable executeStep : WorkflowStep → WorkflowState → StepResult + Thrown.

Lemma executeNextStep_enough_fuel fuel e instanceId :
  (∀ state workflow,
     states e !! instanceId = Some state →
     workflows e !! workflowId state = Some workflow →
     remaining workflow state ≤ fuel) →
  is_Some (executeNextStep executeStep fuel e instanceId).
Proof.
  revert e. induction fuel as [|fuel IH]; intros e Hfuel; simpl.
  - destruct (states e !! instanceId) as [state|] eqn:Hst; [|done].
    destruct (workflows e !! workflowId state) as [workflow|] eqn:Hwf; [|done].
    destruct (findNextStep workflow state) as [nextStep|] eqn:Hnext; [|done].
    destruct (executeStep nextStep _) as [result|thrown]; [|done].
    destruct (requiresHuman result); [done|].
    destruct (success result); [|done].
    apply findNextStep_Some in Hnext as [Hin Hnew].
    specialize (Hfuel _ _ eq_refl Hwf). unfold remaining in Hfuel.
    pose proof (remaining_push_lt _ _ _ Hin Hnew). lia.
  - destruct (states e !! instanceId) as [state|] eqn:Hst; [|done].
    destruct (workflows e !! workflowId state) as [workflow|] eqn:Hwf; [|done].
    destruct (findNextStep workflow state) as [nextStep|] eqn:Hnext; [|done].
    destruct (executeStep nextStep _) as [result|thrown]; [|done].
    destruct (requiresHuman result); [done|].
    destruct (success result); [|done].
    match goal with
    | |- is_Some (mbind _ (executeNextStep _ _ ?e2 _)) =>
        destruct (IH e2) as [[e3 obs] ->]; [|done]
    end.
    intros state' workflow'. simpl. rewrite lookup_insert_eq.
    intros [= <-]. apply findNextStep_Some in Hnext as [Hin Hnew].
    specialize (Hfuel _ _ eq_refl Hwf).
    pose proof (remaining_push_lt _ _ _ Hin Hnew) as Hlt.
    unfold remaining in *.
    destruct (truthy (data result)); simpl; rewrite Hwf; intros [= <-]; simpl; lia.
Qed.

Lemma run_loop_returns e instanceId :
  is_Some (run_loop executeStep e instanceId).
Proof.
  apply executeNextStep_enough_fuel. intros state workflow Hst Hwf.
  unfold fuel_for. rewrite Hst, Hwf. apply remaining_le.
Qed.

End Termination.

Lemma chain_app {A} (R : A → A → Prop) l1 l2 x :
  chain R l1 → last l1 = Some x → chain R (x :: l2) → chain R (l1 ++ l2).
Proof.
  induction 1 as [|y|y z l Hyz Hchain IH]; simpl.
  - discriminate.
  - intros [= ->] Hl2. inversion Hl2; subst; simpl; [constructor|by constructor].
  - intros Hlast Hl2. constructor; [done|]. by apply IH.
Qed.

Lemma chain_impl {A} (R S : A → A → Prop) l :
  (∀ x y, R x y → S x y) → chain R l → chain S l.
Proof. intros HRS. induction 1; constructor; auto. Qed.

Lemma chain_lookup {A} (R : A → A → Prop) l i x y :
  chain R l → l !! i = Some x → l !! S i = Some y → R x y.
Proof.
  intros Hchain. revert i. induction Hchain as [|z|z w l Hzw Hchain IH]; intros i.
  - done.
  - destruct i; simpl; [done|]. by rewrite lookup_nil.
  - destruct i as [|i]; simpl.
    + by intros [= ->] [= ->].
    + apply IH.
Qed.

Lemma move_put instanceId e st1 st2 :
  states e !! instanceId = Some st1 →
  workflowId st2 = workflowId st1 →
  status st2 = status st1 ∨ transition (status st1) (status st2) →
  pendingHumanInputs e !! instanceId = None →
  status st2 ≠ paused →
  instance_move instanceId e (put_state instanceId st2 e).
Proof.
  intros Hst Hwf Hmove Hnone Hnot. split; [done|]. split.
  - intros other Hother. simpl. by rewrite lookup_insert_ne.
  - exists st1, st2. simpl. rewrite lookup_insert_eq, Hnone.
    repeat split; try done; by intros [? ?].
Qed.

Lemma move_pause instanceId e st1 st2 h :
  states e !! instanceId = Some st1 →
  workflowId st2 = workflowId st1 →
  status st2 = status st1 ∨ transition (status st1) (status st2) →
  status st2 = paused →
  instance_move instanceId e (set_pending instanceId h (put_state instanceId st2 e)).
Proof.
  intros Hst Hwf Hmove Hpaused. split; [done|]. split.
  - intros other Hother. simpl. by rewrite !lookup_insert_ne.
  - exists st1, st2. simpl. rewrite !lookup_insert_eq.
    repeat split; try done; by eexists.
Qed.

Lemma put_state_lookup instanceId st e :
  states (put_state instanceId st e) !! instanceId = Some st.
Proof. simpl. apply lookup_insert_eq. Qed.

Section Loop.
Variable executeStep : WorkflowStep → WorkflowState → StepResult + Thrown.

(** The loop, entered in status pending or running with no pending
    input, passes through a chain of moves of that instance and returns
    the last state it showed. *)
Lemma executeNextStep_moves fuel e instanceId st e' obs :
  executeNextStep executeStep fuel e instanceId = Some (e', obs) →
  states e !! instanceId = Some st →
  status st = pending ∨ status st = running →
  pendingHumanInputs e !! instanceId = None →
  chain (instance_move instanceId) (e :: obs.*2) ∧
  last (e :: obs.*2) = Some e'.
Proof.
  revert e st e' obs.
  induction fuel as [|fuel IH]; intros e st e' obs Hrun Hst Hstatus Hnone;
    simpl in Hrun; rewrite Hst in Hrun.
  all: destruct (workflows e !! workflowId st) as [workflow|] eqn:Hwf;
    [|injection Hrun as <- <-; split; [constructor|done]].
  all: destruct (findNextStep workflow st) as [nextStep|] eqn:Hnext;
    [|injection Hrun as <- <-; simpl; split; [|done];
      constructor; [|constructor];
      apply (move_put _ _ st); try done;
      destruct Hstatus as [-> | ->]; right; constructor].
  all: set (st1 := with_status running (with_currentStepId (step_id nextStep) st)) in *.
  all: assert (Hfirst : instance_move instanceId e (put_state instanceId st1 e)) by
    (apply (move_put _ _ st); try done;
     destruct Hstatus as [-> | ->]; [right; constructor|by left]).
  all: pose proof (put_state_lookup instanceId st1 e) as Hst1.
  all: destruct (executeStep nextStep st1) as [result|thrown];
    [|injection Hrun as <- <-; simpl; split; [|done];
      constructor; [done|]; constructor; [|constructor];
      apply (move_put _ _ st1); try done; right; constructor].
  all: destruct (requiresHuman result) as [h|];
    [injection Hrun as <- <-; simpl; split; [|done];
     constructor; [done|]; constructor; [|constructor];
     apply (move_pause _ _ st1); try done; right; constructor|].
  all: destruct (success result);
    [|injection Hrun as <- <-; simpl; split; [|done];
      constructor; [done|]; constructor; [|constructor];
      apply (move_put _ _ st1); try done; right; constructor].
  { discriminate. }
  destruct (executeNextStep _ _ _ _) as [[e3 obs3]|] eqn:Hrec; [|done].
  simpl in Hrun. injection Hrun as <- <-.
  eapply IH in Hrec as [Hchain Hlast].
  - split; [|exact Hlast]. simpl.
    constructor; [done|]. constructor; [|exact Hchain].
    apply (move_put _ _ st1); try done;
      destruct (truthy (data result)); simpl; auto.
  - apply put_state_lookup.
  - right. by destruct (truthy (data result)).
  - done.
Qed.
End Loop.

Lemma move_resume instanceId e st1 st2 :
  states e !! instanceId = Some st1 →
  workflowId st2 = workflowId st1 →
  status st2 = status st1 ∨ transition (status st1) (status st2) →
  status st2 ≠ paused →
  instance_move instanceId e (delete_pending instanceId (put_state instanceId st2 e)).
Proof.
  intros Hst Hwf Hmove Hnot. split; [done|]. split.
  - intros other Hother. simpl. by rewrite lookup_insert_ne, lookup_delete_ne.
  - exists st1, st2. simpl. rewrite lookup_insert_eq, lookup_delete_eq.
    repeat split; try done; by intros [? ?].
Qed.

Lemma consistent_fresh e instanceId :
  consistent e → states e !! instanceId = None →
  pendingHumanInputs e !! instanceId = None.
Proof.
  intros Hcons Hfresh. destruct (pendingHumanInputs e !! instanceId) eqn:Hp; [|done].
  destruct (proj1 (Hcons instanceId)) as (st & Hst & _); [by eexists|congruence].
Qed.

Lemma engine_step_consistent e1 e2 :
  engine_step e1 e2 → consistent e1 → consistent e2.
Proof.
  intros Hstep Hcons. destruct Hstep as [e workflow|e instanceId st Hfresh Hpending
                                         |e1 e2 instanceId Hmove].
  - exact Hcons.
  - intros other. simpl. destruct (decide (other = instanceId)) as [->|Hne].
    + rewrite lookup_insert_eq, (consistent_fresh _ _ Hcons Hfresh). split.
      * by intros [? ?].
      * intros (st' & [= <-] & Hpaused). congruence.
    + rewrite lookup_insert_ne by done. apply Hcons.
  - destruct Hmove as (_ & Hothers & st1 & st2 & Hst1 & Hst2 & _ & _ & Hiff).
    intros other. destruct (decide (other = instanceId)) as [->|Hne].
    + rewrite Hiff, Hst2. split; [by eauto|]. by intros (st' & [= <-] & ?).
    + destruct (Hothers other Hne) as [-> ->]. apply Hcons.
Qed.

Lemma chain_Forall {A} (R : A → A → Prop) (P : A → Prop) l :
  (∀ a b, R a b → P a → P b) →
  chain R l → (∀ x, head l = Some x → P x) → Forall P l.
Proof.
  intros Hpres. induction 1 as [|x|x y l Hxy Hchain IH]; intros Hhead.
  - constructor.
  - constructor; [by apply Hhead|constructor].
  - assert (P x) by by apply Hhead.
    constructor; [done|]. apply IH. intros ? [= <-]. eauto.
Qed.

Lemma Forall_last {A} (P : A → Prop) l x :
  Forall P l → last l = Some x → P x.
Proof.
  intros Hall Hlast. rewrite Forall_forall in Hall. apply Hall.
  destruct l as [|a l' _] using rev_ind; [done|].
  rewrite last_snoc in Hlast. injection Hlast as ->. set_solver.
Qed.

Section History.
Variable executeStep : WorkflowStep → WorkflowState → StepResult + Thrown.

Lemma startWorkflow_Returned e workflowId instanceId initialData e' obs r :
  startWorkflow executeStep e workflowId instanceId initialData
    = Some (e', obs, Returned r) →
  r = instanceId ∧ is_Some (workflows e !! workflowId) ∧
  run_loop executeStep
    (put_state instanceId (initial_state instanceId workflowId initialData) e)
    instanceId = Some (e', obs).
Proof.
  unfold startWorkflow. destruct (workflows e !! workflowId); [|done].
  destruct (run_loop _ _ _) as [[e2 obs2]|]; [|done]. simpl.
  intros [= <- <- <-]. eauto.
Qed.

Lemma provideHumanInput_Returned e instanceId input e' obs :
  provideHumanInput executeStep e instanceId input = Some (e', obs, Returned ()) →
  ∃ state pendingInput obs',
    states e !! instanceId = Some state ∧
    pendingHumanInputs e !! instanceId = Some pendingInput ∧
    status state = paused ∧
    let state2 :=
      with_status running
        (push_completed (hi_stepId pendingInput)
           (set_stepData (hi_stepId pendingInput)
              (VObj (<["humanInput" := input]>
                 (spread (prop (stepData state) (hi_stepId pendingInput)))))
              state)) in
    let e1 := delete_pending instanceId (put_state instanceId state2 e) in
    obs = emitEvent e1 instanceId (step_completed (hi_stepId pendingInput) input) :: obs' ∧
    run_loop executeStep e1 instanceId = Some (e', obs').
Proof.
  unfold provideHumanInput.
  destruct (states e !! instanceId) as [state|]; [|done].
  destruct (pendingHumanInputs e !! instanceId) as [pendingInput|]; [|done].
  case_decide as Hpaused; [|done].
  destruct (run_loop _ _ _) as [[e2 obs2]|] eqn:Hloop; [|done]. simpl.
  intros [= <- <-]. by exists state, pendingInput, obs2.
Qed.

Lemma history_sound h :
  history executeStep h → chain engine_step h ∧ Forall consistent h.
Proof.
  assert (Hgrow : ∀ h0 e l,
    chain engine_step h0 → Forall consistent h0 → last h0 = Some e →
    chain engine_step (e :: l) →
    chain engine_step (h0 ++ l) ∧ Forall consistent (h0 ++ l)).
  { intros h0 e l Hchain Hall Hlast Hl. split; [by eapply chain_app|].
    apply Forall_app. split; [done|].
    assert (Hel : Forall consistent (e :: l)).
    { eapply chain_Forall; [apply engine_step_consistent|done|].
      intros ? [= <-]. by eapply Forall_last. }
    by apply Forall_cons in Hel as [_ ?]. }
  induction 1 as [|h e workflow _ [IHc IHf] Hlast
                  |h e workflowId instanceId initialData e' obs _ [IHc IHf] Hlast Hfresh Hstart
                  |h e instanceId input e' obs _ [IHc IHf] Hlast Hinput].
  - split; [constructor|]. constructor; [|constructor].
    intros instanceId. simpl. rewrite !lookup_empty. split.
    + by intros [? ?].
    + by intros (? & ? & _).
  - eapply Hgrow; [done..|]. constructor; constructor.
  - apply startWorkflow_Returned in Hstart as (_ & _ & Hloop).
    eapply executeNextStep_moves in Hloop as [Hchain _];
      [|apply put_state_lookup|by left
       |simpl; eapply consistent_fresh; [by eapply Forall_last|done]].
    eapply Hgrow; [done..|]. constructor; [by constructor|].
    eapply chain_impl; [|exact Hchain]. intros ???. by econstructor.
  - apply provideHumanInput_Returned in Hinput
      as (state & pendingInput & obs' & Hst & Hpend & Hpaused & -> & Hloop).
    eapply executeNextStep_moves in Hloop as [Hchain _];
      [|simpl; apply lookup_insert_eq|by right|simpl; apply lookup_delete_eq].
    eapply Hgrow; [done..|]. simpl. constructor.
    + eapply es_move, (move_resume _ _ state); try done.
      right. simpl. rewrite Hpaused. constructor.
    + eapply chain_impl; [|exact Hchain]. intros ???. by econstructor.
Qed.

Lemma replay_from_history h calls :
  history executeStep h → history executeStep (replay_from executeStep h calls).
Proof.
  revert h. induction calls as [|c calls IH]; intros h Hh; simpl; [done|].
  destruct (last h) as [e|] eqn:Hlast; [|done]. apply IH.
  destruct c as [workflow|workflowId uuid initialData|instanceId input]; simpl.
  - by apply history_register.
  - case_decide as Hfresh; [|by rewrite app_nil_r].
    destruct (startWorkflow _ _ _ _ _) as [[[e' obs] [r|err]]|] eqn:Hstart;
      try by rewrite app_nil_r.
    pose proof Hstart as Hr. apply startWorkflow_Returned in Hr as [-> _].
    by eapply history_start.
  - destruct (provideHumanInput _ _ _ _) as [[[e' obs] [[]|err]]|] eqn:Hinput;
      try by rewrite app_nil_r.
    by eapply history_input.
Qed.

Lemma replay_history calls : history executeStep (replay executeStep calls).
Proof. apply replay_from_history. constructor. Qed.

End History.

Lemma chain_fmap {A B} (f : A → B) (R : B → B → Prop) l :
  chain (λ x y, R (f x) (f y)) l → chain R (f <$> l).
Proof. induction 1; simpl; constructor; auto. Qed.

Lemma lifecycle_refl T o : lifecycle T o o.
Proof. destruct o; constructor. Qed.

Lemma engine_step_lifecycle instanceId e1 e2 :
  engine_step e1 e2 →
  lifecycle transition (status_of e1 instanceId) (status_of e2 instanceId).
Proof.
  unfold status_of.
  intros [e workflow|e other st Hfresh Hpending|e e' other Hmove]; simpl.
  - apply lifecycle_refl.
  - destruct (decide (instanceId = other)) as [->|Hne].
    + rewrite lookup_insert_eq, Hfresh. simpl. rewrite Hpending. constructor.
    + rewrite lookup_insert_ne by done. apply lifecycle_refl.
  - destruct Hmove as (_ & Hothers & st1 & st2 & Hst1 & Hst2 & _ & Hmove & _).
    destruct (decide (instanceId = other)) as [->|Hne].
    + rewrite Hst1, Hst2. simpl. destruct Hmove as [-> | Hmove]; by constructor.
    + destruct (Hothers instanceId Hne) as [-> _]. apply lifecycle_refl.
Qed.

Lemma lifecycle_terminal s o :
  terminal s → lifecycle transition (Some s) o → o = Some s.
Proof.
  intros Hs Hlife. inversion Hlife as [| |?|? ? Hmove]; subst; [done|].
  destruct Hs as [-> | ->]; inversion Hmove.
Qed.

Lemma chain_terminal l i j s o :
  chain (lifecycle transition) l → terminal s → i ≤ j →
  l !! i = Some (Some s) → l !! j = Some o → o = Some s.
Proof.
  intros Hchain Hs Hij Hi. revert o. induction Hij as [|j Hij IH]; intros o Hj.
  - congruence.
  - destruct (l !! j) as [o'|] eqn:Hj'.
    + specialize (IH o' eq_refl) as ->.
      eapply lifecycle_terminal; [done|]. by eapply chain_lookup.
    + apply lookup_ge_None in Hj'. apply lookup_lt_Some in Hj. lia.
Qed.

Lemma chain_reached_from l j s (P : Status → Prop) :
  chain (lifecycle transition) l → l !! 0 = Some None →
  (∀ s', transition s' s → P s') → s ≠ pending →
  l !! j = Some (Some s) →
  ∃ i s', i < j ∧ l !! i = Some (Some s') ∧ P s'.
Proof.
  intros Hchain Hhead Hfrom Hnot. induction j as [|j IH]; intros Hj; [congruence|].
  destruct (l !! j) as [o|] eqn:Hj'.
  2:{ apply lookup_ge_None in Hj'. apply lookup_lt_Some in Hj. lia. }
  pose proof (chain_lookup _ _ _ _ _ Hchain Hj' Hj) as Hlife.
  inversion Hlife as [| |?|s1 ? Hmove]; subst.
  - done.
  - destruct IH as (i & s' & Hi & Hs' & HP); [done|].
    exists i, s'. split; [lia|done].
  - exists j, s1. split; [lia|]. split; [done|]. by apply Hfrom.
Qed.

Lemma history_head executeStep h :
  history executeStep h → h !! 0 = Some new_engine.
Proof.
  induction 1 as [|h ???? IH|h ???????? IH|h ??????? IH]; [done|..];
    destruct h; try done; by destruct IH.
Qed.

Section Failure.
Variable executeStep : WorkflowStep → WorkflowState → StepResult + Thrown.

Lemma fails_inv_returned result err :
  fails (inl result) err →
  success result = false ∧ requiresHuman result = None ∧ err = error result.
Proof. by inversion 1. Qed.

Lemma fails_inv_thrown t err : fails (inr t) err → err = Some (describe t).
Proof. by inversion 1. Qed.

Lemma executeNextStep_failure fuel e instanceId e' obs :
  executeNextStep executeStep fuel e instanceId = Some (e', obs) →
  ∀ other step es state err,
    emitEvent es other (step_started (step_id step) step) ∈ obs →
    states es !! other = Some state →
    fails (executeStep step state) err →
    last obs = Some (emitEvent e' other (workflow_failed (step_id step) err)) ∧
    status_of e' other = Some failed.
Proof.
  revert e e' obs.
  induction fuel as [|fuel IH]; intros e e' obs Hrun other step es state err;
    simpl in Hrun.
  all: destruct (states e !! instanceId) as [st|] eqn:Hst;
    [|injection Hrun as <- <-; by intros ?%elem_of_nil].
  all: destruct (workflows e !! workflowId st) as [workflow|] eqn:Hwf;
    [|injection Hrun as <- <-; by intros ?%elem_of_nil].
  all: destruct (findNextStep workflow st) as [nextStep|] eqn:Hnext;
    [|injection Hrun as <- <-; intros Hin; apply list_elem_of_singleton in Hin;
      discriminate].
  all: destruct (executeStep nextStep _) as [result|t] eqn:Hexec;
    [destruct (requiresHuman result) as [hi|] eqn:Hhuman;
     [|destruct (success result) eqn:Hsuccess]|].
  all: try discriminate.
  all: try (destruct (executeNextStep _ _ _ _) as [[e3 obs3]|] eqn:Hrec; [|done];
            simpl in Hrun).
  all: injection Hrun as <- <-.
  all: intros Hin Hes Hfails.
  all: apply elem_of_cons in Hin as [Hin|Hin];
    [unfold emitEvent in Hin; simplify_eq; simpl in Hes;
     rewrite lookup_insert_eq in Hes; simplify_eq;
     rewrite Hexec in Hfails;
     first [apply fails_inv_returned in Hfails as (? & ? & ->)
           |apply fails_inv_thrown in Hfails as ->];
     try congruence;
     (split; [done|]; unfold status_of; simpl; by rewrite lookup_insert_eq)
    |apply elem_of_cons in Hin as [Hin|Hin]; [discriminate|]];
    try (by apply elem_of_nil in Hin).
  destruct (IH _ _ _ Hrec other step es state err Hin Hes Hfails) as [Hlast Hfailed].
  split; [|done]. destruct obs3; [done|]. done.
Qed.

End Failure.
(** * The claims about the workflow engine *)

Section EngineClaims.
Variable executeStep : WorkflowStep → WorkflowState → StepResult + Thrown.

(** With no step that can run, the loop completes the instance. *)
Lemma executeNextStep_nothing_to_run fuel e instanceId state workflow :
  states e !! instanceId = Some state →
  workflows e !! workflowId state = Some workflow →
  Forall (λ s, ¬ qualifies state s) (steps workflow) →
  let state' := with_status completed state in
  let e' := put_state instanceId state' e in
  executeNextStep executeStep fuel e instanceId
    = Some (e', [emitEvent e' instanceId (workflow_completed state')]).
Proof.
  intros Hst Hwf Hnone. simpl.
  assert (Hfind : findNextStep workflow state = None).
  { apply find_none_all. eapply Forall_impl; [exact Hnone|].
    intros s. apply not_can_run_not_qualifies. }
  destruct fuel; simpl; by rewrite Hst, Hwf, Hfind.
Qed.

(** C1. [findNextStep] returns the first step, in the declared order of
    the definition, that is not completed and whose declared
    dependencies are all completed; a step without dependencies
    qualifies as soon as it is not completed; and when no step
    qualifies, [executeNextStep] sets the status to completed and emits
    [workflow_completed]. *)
Theorem findNextStep_first_qualifying workflow state :
  match findNextStep workflow state with
  | Some step =>
      ∃ before after,
        steps workflow = before ++ step :: after ∧
        qualifies state step ∧
        Forall (λ s, ¬ qualifies state s) before
  | None => Forall (λ s, ¬ qualifies state s) (steps workflow)
  end ∧
  (∀ step,
     dependencies step = None ∨ dependencies step = Some [] →
     step_id step ∉ completedSteps state → qualifies state step) ∧
  (∀ fuel e instanceId,
     states e !! instanceId = Some state →
     workflows e !! workflowId state = Some workflow →
     Forall (λ s, ¬ qualifies state s) (steps workflow) →
     let state' := with_status completed state in
     let e' := put_state instanceId state' e in
     executeNextStep executeStep fuel e instanceId
       = Some (e', [emitEvent e' instanceId (workflow_completed state')]) ∧
     status state' = completed).
Proof.
  split; [|split].
  - unfold findNextStep. destruct (find _ _) as [step|] eqn:Hfind.
    + apply find_first_split in Hfind as (before & after & Hsplit & Hrun & Hbefore).
      exists before, after. split; [done|]. split; [by apply can_run_qualifies|].
      eapply Forall_impl; [exact Hbefore|]. intros s. apply not_can_run_not_qualifies.
    + apply find_none_all in Hfind. eapply Forall_impl; [exact Hfind|].
      intros s. apply not_can_run_not_qualifies.
  - intros step Hdeps Hnew. split; [done|].
    intros dep. destruct Hdeps as [-> | ->]; simpl; by intros ?%elem_of_nil.
  - intros fuel e instanceId Hst Hwf Hnone. simpl. split; [|done].
    by apply (executeNextStep_nothing_to_run fuel e instanceId state workflow).
Qed.


(** C6. [provideHumanInput] throws exactly when the instance does not
    exist, or no human input is pending for it, or its status is not
    paused; the error is [InvalidState] and the engine - status,
    completed steps, step data and pending inputs of every instance - is
    as it was, with no event emitted. *)
Theorem provideHumanInput_invalid_state e instanceId input :
  ∃ e' obs r,
    provideHumanInput executeStep e instanceId input = Some (e', obs, r) ∧
    (r = Threw InvalidState ↔
       states e !! instanceId = None ∨
       pendingHumanInputs e !! instanceId = None ∨
       ∃ state, states e !! instanceId = Some state ∧ status state ≠ paused) ∧
    (∀ err, r = Threw err → err = InvalidState ∧ e' = e ∧ obs = []).
Proof.
  unfold provideHumanInput.
  destruct (states e !! instanceId) as [state|] eqn:Hst.
  2:{ eexists _, _, _. split; [done|]. split; [|by intros ? [= <-]].
      split; [by left|done]. }
  destruct (pendingHumanInputs e !! instanceId) as [pendingInput|] eqn:Hpend.
  2:{ eexists _, _, _. split; [done|]. split; [|by intros ? [= <-]].
      split; [by (right; left)|done]. }
  case_decide as Hpaused.
  - match goal with |- context [run_loop _ ?e1 _] =>
      destruct (run_loop_returns executeStep e1 instanceId) as [[e2 obs2] ->] end.
    simpl. eexists _, _, _. split; [done|]. split; [|done].
    split; [done|]. intros [?|[?|(st & [= <-] & ?)]]; done.
  - eexists _, _, _. split; [done|]. split; [|by intros ? [= <-]].
    split; [|done]. intros _. right. right. by exists state.
Qed.

(** C9. When no step of a registered definition is eligible at the
    start - as in a dependency cycle, where every step waits for another
    one - [startWorkflow] returns normally with the instance completed,
    no step completed or started, and [workflow_completed] as the only
    event. *)
Theorem no_eligible_step_completes_at_start e workflowId workflow instanceId initialData :
  workflows e !! workflowId = Some workflow →
  Forall (λ s, ¬ qualifies (initial_state instanceId workflowId initialData) s)
         (steps workflow) →
  let state' := with_status completed (initial_state instanceId workflowId initialData) in
  let e' := put_state instanceId state' e in
  startWorkflow executeStep e workflowId instanceId initialData
    = Some (e', [emitEvent e' instanceId (workflow_completed state')],
            Returned instanceId) ∧
  states e' !! instanceId = Some state' ∧
  status state' = completed ∧ completedSteps state' = [].
Proof.
  intros Hwf Hnone state' e'.
  pose (state := initial_state instanceId workflowId initialData).
  pose proof (executeNextStep_nothing_to_run
                (fuel_for (put_state instanceId state e) instanceId)
                (put_state instanceId state e) instanceId state workflow
                (put_state_lookup _ _ _) Hwf Hnone) as Hrun.
  cbv zeta in Hrun.
  unfold startWorkflow, run_loop. rewrite Hwf. fold state. rewrite Hrun.
  assert (He' : put_state instanceId (with_status completed state)
                  (put_state instanceId state e) = e').
  { unfold e', put_state. simpl. by rewrite insert_insert_eq. }
  simpl. rewrite He'. repeat split; try done. apply put_state_lookup.
Qed.



(** The default [executeStep] never returns an unsuccessful result with
    a human-input request, and never throws. *)
Lemma executeStep_default_unsuccessful step state :
  ∃ result,
    executeStep_default step state = inl result ∧
    (success result = false →
     requiresHuman result = None ∧
     error result = Some ("Unknown step type: " +:+ step_type step)).
Proof.
  unfold executeStep_default.
  destruct (String.eqb (step_type step) "human"); [by eexists|].
  destruct (String.eqb (step_type step) "system"); [by eexists|].
  destruct (String.eqb (step_type step) "agent"); by eexists.
Qed.


End EngineClaims.

(** * The claims at concrete inputs *)


(** C1 at an input: the approval workflow with its three steps
    completed. *)
Lemma findNextStep_first_qualifying_witness :
  let state :=
    {| st_id := "i1"; workflowId := "simple-approval";
       currentStepId := Some "final-step";
       completedSteps := ["collect-info"; "human-review"; "final-step"];
       stepData := ∅; status := running |} in
  let e := put_state "i1" state (registerWorkflow simpleWorkflow new_engine) in
  let state' := with_status completed state in
  let e' := put_state "i1" state' e in
  executeNextStep executeStep_default 0 e "i1"
    = Some (e', [emitEvent e' "i1" (workflow_completed state')]) ∧
  status state' = completed.
Proof.
  intros state e.
  apply (proj2 (proj2 (findNextStep_first_qualifying executeStep_default
                         simpleWorkflow state)) 0 e "i1").
  - reflexivity.
  - reflexivity.
  - repeat constructor; apply not_can_run_not_qualifies; reflexivity.
Defined.




(** C6 at an input: an answer for an instance that has completed. *)
Lemma provideHumanInput_invalid_state_witness :
  let e := default new_engine (last (replay executeStep_default approval_calls)) in
  status_of e "i1" = Some completed ∧
  ∃ e' obs r,
    provideHumanInput executeStep_default e "i1" (VStr "again") = Some (e', obs, r) ∧
    r = Threw InvalidState ∧ e' = e ∧ obs = [].
Proof.
  intros e. split; [vm_compute; reflexivity|].
  destruct (provideHumanInput_invalid_state executeStep_default e "i1" (VStr "again"))
    as (e' & obs & r & Hcall & Hiff & Hsame).
  exists e', obs, r. split; [exact Hcall|].
  assert (Hr : r = Threw InvalidState).
  { apply Hiff. right. right.
    exists (default (initial_state "i1" "simple-approval" None) (states e !! "i1")).
    split; vm_compute; [reflexivity|discriminate]. }
  split; [exact Hr|]. apply (Hsame InvalidState Hr).
Defined.

(** C9 at an input: the two steps that wait for each other. *)
Lemma no_eligible_step_completes_at_start_witness :
  let e := registerWorkflow cyclicWorkflow new_engine in
  let r := startWorkflow executeStep_default e "cycle" "i1" None in
  status_of (engine_of r) "i1" = Some completed ∧
  events_of r
    = [workflow_completed (with_status completed (initial_state "i1" "cycle" None))].
Proof.
  intros e r.
  destruct (no_eligible_step_completes_at_start executeStep_default e "cycle"
              cyclicWorkflow "i1" None) as (Hrun & Hst & Hstatus & Hnone).
  - reflexivity.
  - repeat constructor; apply not_can_run_not_qualifies; reflexivity.
  - unfold r. rewrite Hrun. simpl. unfold status_of. simpl. split; [|done].
    by rewrite lookup_insert_eq.
Defined.

(** Scenario 1 of the specification, run. *)
Example approval_scenario :
  let h := replay executeStep_default approval_calls in
  (λ e, status_of e "i1") <$> h !! 6 = Some (Some paused) ∧
  (λ e, hi_stepId <$> pendingHumanInputs e !! "i1") <$> h !! 6
    = Some (Some "human-review") ∧
  (λ e, completedSteps <$> states e !! "i1") <$> last h
    = Some (Some ["collect-info"; "human-review"; "final-step"]) ∧
  (λ e, status_of e "i1") <$> last h = Some (Some completed).
Proof. vm_compute. done. Qed.

(** Scenario 2 of the specification, run: the step of unknown type fails
    the workflow after the first step has completed. *)
Example bogus_scenario :
  let r := startWorkflow executeStep_default
             (registerWorkflow bogusWorkflow new_engine) "with-bogus-step" "i1" None in
  status_of (engine_of r) "i1" = Some failed ∧
  last (events_of r)
    = Some (workflow_failed "odd" (Some "Unknown step type: bogus")) ∧
  (λ st, completedSteps st) <$> states (engine_of r) !! "i1" = Some ["first"].
Proof. vm_compute. done. Qed.

(** Scenario 5 of the specification, run: of two steps without
    dependencies the one declared first is selected. *)
Example declared_order_scenario :
  let step id := {| step_id := id; step_name := id; step_type := "system";
                    step_config := ∅; dependencies := None |} in
  let workflow := {| wf_id := "w"; wf_name := "w"; wf_description := None;
                     steps := [step "x"; step "y"]; wf_metadata := None |} in
  findNextStep workflow (initial_state "i1" "w" None) = Some (step "x") ∧
  findNextStep workflow (push_completed "x" (initial_state "i1" "w" None))
    = Some (step "y").
Proof. vm_compute. done. Qed.
(** * Further properties of the workflow engine *)

Lemma appends_trans workflow d1 d2 d3 :
  appends workflow d1 d2 → appends workflow d2 d3 → appends workflow d1 d3.
Proof. induction 1; [done|]. intros. econstructor; eauto. Qed.

Lemma appends_prefix workflow done done' :
  appends workflow done done' → done `prefix_of` done'.
Proof.
  induction 1 as [|done step done' _ _ _ _ IH]; [done|].
  etrans; [|exact IH]. by apply prefix_app_r.
Qed.

Lemma appends_NoDup workflow done done' :
  appends workflow done done' → NoDup done → NoDup done'.
Proof.
  induction 1 as [|done step done' _ Hnew _ _ IH]; [done|]. intros Hnodup.
  apply IH. apply NoDup_app. split; [done|]. split.
  - intros x Hx ->%list_elem_of_singleton. done.
  - apply NoDup_singleton.
Qed.

(** Every id that was appended is the id of a step of the definition
    whose dependencies come earlier in the list. *)
Lemma appends_ordered workflow done done' :
  appends workflow done done' →
  ∀ i id, length done ≤ i → done' !! i = Some id →
    ∃ step, step ∈ steps workflow ∧ step_id step = id ∧
            (step_id step ∉ take i done') ∧
            ∀ dep, dep ∈ default [] (dependencies step) → dep ∈ take i done'.
Proof.
  induction 1 as [done|done step done' Hin Hnew Hdeps Happ IH]; intros i id Hi Hid.
  - apply lookup_lt_Some in Hid. lia.
  - pose proof (appends_prefix _ _ _ Happ) as [rest Hrest].
    destruct (decide (i = length done)) as [->|Hne].
    + exists step.
      assert (Htake : take (length done) done' = done).
      { rewrite Hrest, <- app_assoc. by rewrite take_app_length. }
      rewrite Htake. split; [done|]. split; [|done].
      rewrite Hrest, <- app_assoc, lookup_app_r in Hid by done.
      rewrite Nat.sub_diag in Hid. simpl in Hid. congruence.
    + apply IH; [|done]. rewrite length_app. simpl. lia.
Qed.

Lemma can_run_inv state step :
  can_run state step = true →
  (step_id step ∉ completedSteps state) ∧
  ∀ dep, dep ∈ default [] (dependencies step) → dep ∈ completedSteps state.
Proof. apply can_run_qualifies. Qed.

Section Progress.
Variable executeStep : WorkflowStep → WorkflowState → StepResult + Thrown.

(** What a run of the loop leaves of the instance and of the rest of
    the engine. *)
Lemma executeNextStep_progress fuel e instanceId st workflow e' obs :
  executeNextStep executeStep fuel e instanceId = Some (e', obs) →
  states e !! instanceId = Some st →
  workflows e !! workflowId st = Some workflow →
  workflows e' = workflows e ∧
  (∀ other, other ≠ instanceId →
     states e' !! other = states e !! other ∧
     pendingHumanInputs e' !! other = pendingHumanInputs e !! other) ∧
  ∃ st',
    states e' !! instanceId = Some st' ∧
    st_id st' = st_id st ∧ workflowId st' = workflowId st ∧
    appends workflow (completedSteps st) (completedSteps st') ∧
    (∀ k, k ∈ completedSteps st → stepData st' !! k = stepData st !! k).
Proof.
  revert e st e' obs.
  induction fuel as [|fuel IH]; intros e st e' obs Hrun Hst Hwf;
    simpl in Hrun; rewrite Hst, Hwf in Hrun.
  all: destruct (findNextStep workflow st) as [nextStep|] eqn:Hnext;
    [|injection Hrun as <- <-; simpl; split; [done|]; split;
      [by intros other Hne; rewrite lookup_insert_ne|];
      eexists; rewrite lookup_insert_eq; repeat split; constructor].
  all: destruct (executeStep nextStep _) as [result|thrown];
    [|injection Hrun as <- <-; simpl; split; [done|]; split;
      [by intros other Hne; rewrite !lookup_insert_ne|];
      eexists; rewrite lookup_insert_eq; repeat split; constructor].
  all: destruct (requiresHuman result) as [h|];
    [injection Hrun as <- <-; simpl; split; [done|]; split;
      [by intros other Hne; rewrite !lookup_insert_ne|];
      eexists; rewrite lookup_insert_eq; repeat split; constructor|].
  all: destruct (success result);
    [|injection Hrun as <- <-; simpl; split; [done|]; split;
      [by intros other Hne; rewrite !lookup_insert_ne|];
      eexists; rewrite lookup_insert_eq; repeat split; constructor].
  { discriminate. }
  destruct (executeNextStep _ _ _ _) as [[e3 obs3]|] eqn:Hrec; [|done].
  simpl in Hrun. injection Hrun as <- <-.
  pose proof (findNextStep_Some _ _ _ Hnext) as [Hin _].
  apply find_some in Hnext as [_ Hcan]. apply can_run_inv in Hcan as [Hnew Hdeps].
  eapply IH in Hrec as (Hwfs & Hothers & st' & Hst' & Hid & Hwid & Happ & Hdata).
  2:{ apply put_state_lookup. }
  2:{ destruct (truthy (data result)); exact Hwf. }
  split; [done|]. split.
  { intros other Hne. destruct (Hothers other Hne) as [-> ->]. simpl.
    by rewrite !lookup_insert_ne. }
  exists st'. split; [done|].
  split; [rewrite Hid; by destruct (truthy (data result))|].
  split; [rewrite Hwid; by destruct (truthy (data result))|].
  split.
  - apply (appends_step _ _ nextStep); try done.
    by destruct (truthy (data result)).
  - intros k Hk. rewrite Hdata.
    + destruct (truthy (data result)); simpl; [|done].
      apply lookup_insert_ne. intros <-. done.
    + destruct (truthy (data result)); simpl; apply elem_of_app; by left.
Qed.

End Progress.
Section Outcome.
Variable executeStep : WorkflowStep → WorkflowState → StepResult + Thrown.

(** How a run of the loop ends: after events of started and completed
    steps, one last event tells the status in which the instance is
    left. *)
Lemma executeNextStep_outcome fuel e instanceId st workflow e' obs :
  executeNextStep executeStep fuel e instanceId = Some (e', obs) →
  states e !! instanceId = Some st →
  workflows e !! workflowId st = Some workflow →
  ∃ body final st',
    obs = body ++ [final] ∧
    Forall (λ o : Obs, goes_on_after (ev_data o.1) = true) body ∧
    Forall (λ o : Obs, ev_workflowId o.1 = instanceId) obs ∧
    final.2 = e' ∧
    states e' !! instanceId = Some st' ∧
    match ev_data final.1 with
    | workflow_completed s =>
        s = st' ∧ status st' = completed ∧
        pendingHumanInputs e' !! instanceId = pendingHumanInputs e !! instanceId
    | human_input_required h s =>
        s = st' ∧ status st' = paused ∧
        pendingHumanInputs e' !! instanceId = Some h ∧
        ∃ step result,
          step ∈ steps workflow ∧ (step_id step ∉ completedSteps st') ∧
          executeStep step (with_status running st') = inl result ∧
          requiresHuman result = Some h
    | workflow_failed _ _ =>
        status st' = failed ∧
        pendingHumanInputs e' !! instanceId = pendingHumanInputs e !! instanceId
    | step_started _ _ | step_completed _ _ => False
    end.
Proof.
  revert e st e' obs.
  induction fuel as [|fuel IH]; intros e st e' obs Hrun Hst Hwf;
    simpl in Hrun; rewrite Hst, Hwf in Hrun.
  all: destruct (findNextStep workflow st) as [nextStep|] eqn:Hnext;
    [|injection Hrun as <- <-; eexists [], _, _; simpl;
      rewrite lookup_insert_eq; repeat split; by repeat constructor].
  all: pose proof (findNextStep_Some _ _ _ Hnext) as [Hin _].
  all: apply find_some in Hnext as [_ Hcan]; apply can_run_inv in Hcan as [Hnew Hdeps].
  all: destruct (executeStep nextStep _) as [result|thrown] eqn:Hexec;
    [|injection Hrun as <- <-; eexists [_], _, _; simpl;
      rewrite !lookup_insert_eq; repeat split; by repeat constructor].
  all: destruct (requiresHuman result) as [h|] eqn:Hhuman;
    [injection Hrun as <- <-; eexists [_], _, _; simpl;
      rewrite !lookup_insert_eq; repeat split; try by repeat constructor|].
  all: try (by exists nextStep, result).
  all: destruct (success result);
    [|injection Hrun as <- <-; eexists [_], _, _; simpl;
      rewrite !lookup_insert_eq; repeat split; by repeat constructor].
  { discriminate. }
  destruct (executeNextStep _ _ _ _) as [[e3 obs3]|] eqn:Hrec; [|done].
  simpl in Hrun. injection Hrun as <- <-.
  eapply IH in Hrec
    as (body & final & st' & -> & Hbody & Hids & Hfinal & Hst' & Hlast).
  2:{ apply put_state_lookup. }
  2:{ destruct (truthy (data result)); exact Hwf. }
  eexists (_ :: _ :: body), final, st'. split; [done|].
  split; [by repeat constructor|]. split; [by repeat constructor|].
  split; [done|]. split; [done|]. exact Hlast.
Qed.

End Outcome.
Section LoopAlways.
Variable executeStep : WorkflowStep → WorkflowState → StepResult + Thrown.

(** Whatever the definitions, a run of the loop keeps every instance,
    touches only its own, and only appends to its completed steps. *)
Lemma executeNextStep_grows fuel e instanceId e' obs :
  executeNextStep executeStep fuel e instanceId = Some (e', obs) →
  workflows e' = workflows e ∧
  (∀ other, other ≠ instanceId →
     states e' !! other = states e !! other ∧
     pendingHumanInputs e' !! other = pendingHumanInputs e !! other) ∧
  ∀ st, states e !! instanceId = Some st →
    ∃ st', states e' !! instanceId = Some st' ∧
           st_id st' = st_id st ∧ workflowId st' = workflowId st ∧
           completedSteps st `prefix_of` completedSteps st' ∧
           (∀ k, k ∈ completedSteps st → stepData st' !! k = stepData st !! k).
Proof.
  intros Hrun.
  destruct (states e !! instanceId) as [st|] eqn:Hst.
  2:{ destruct fuel; simpl in Hrun; rewrite Hst in Hrun; by injection Hrun as <- <-. }
  destruct (workflows e !! workflowId st) as [workflow|] eqn:Hwf.
  2:{ assert (e' = e) as ->.
      { destruct fuel; simpl in Hrun; rewrite Hst, Hwf in Hrun; by injection Hrun as <- <-. }
      split; [done|]. split; [done|]. intros ? [= <-]. by exists st. }
  destruct (executeNextStep_progress _ _ _ _ _ _ _ _ Hrun Hst Hwf)
    as (Hwfs & Hothers & st' & Hst' & Hid & Hwid & Happ & Hdata).
  split; [done|]. split; [done|]. intros ? [= <-]. exists st'.
  repeat split; try done. by eapply appends_prefix.
Qed.

End LoopAlways.
Lemma executeStep_default_human step state result h :
  executeStep_default step state = inl result →
  requiresHuman result = Some h →
  step_type step = "human" ∧ hi_stepId h = step_id step.
Proof.
  unfold executeStep_default.
  destruct (String.eqb_spec (step_type step) "human") as [Htype|_].
  - intros [= <-] [= <-]. done.
  - destruct (String.eqb (step_type step) "system"); [by intros [= <-]|].
    destruct (String.eqb (step_type step) "agent"); by intros [= <-].
Qed.

Lemma executeStep_default_own_requests : own_requests executeStep_default.
Proof. intros step state result h Hr Hh. by eapply executeStep_default_human. Qed.

Lemma last_app_cons {A} (l : list A) x l' : last (l ++ x :: l') = last (x :: l').
Proof.
  induction l as [|a l IH]; [done|]. rewrite <- IH.
  change ((a :: l) ++ x :: l') with (a :: (l ++ x :: l')).
  destruct (l ++ x :: l') eqn:Happ; [by destruct l|done].
Qed.

Section NoRepeats.
Variable executeStep : WorkflowStep → WorkflowState → StepResult + Thrown.
Hypothesis Hown : own_requests executeStep.

(** A run of the loop entered with no pending input keeps [no_repeats]. *)
Lemma executeNextStep_no_repeats fuel e instanceId e' obs :
  executeNextStep executeStep fuel e instanceId = Some (e', obs) →
  pendingHumanInputs e !! instanceId = None →
  no_repeats e → no_repeats e' ∧ last (e :: obs.*2) = Some e'.
Proof.
  intros Hrun Hnone Hinv.
  destruct (states e !! instanceId) as [st|] eqn:Hst.
  2:{ destruct fuel; simpl in Hrun; rewrite Hst in Hrun; by injection Hrun as <- <-. }
  destruct (workflows e !! workflowId st) as [workflow|] eqn:Hwf.
  2:{ destruct fuel; simpl in Hrun; rewrite Hst, Hwf in Hrun; by injection Hrun as <- <-. }
  destruct (executeNextStep_progress _ _ _ _ _ _ _ _ Hrun Hst Hwf)
    as (_ & Hothers & st' & Hst' & _ & _ & Happ & _).
  destruct (executeNextStep_outcome _ _ _ _ _ _ _ _ Hrun Hst Hwf)
    as (body & final & st'' & -> & _ & _ & Hfinal & Hst'' & Hlast).
  rewrite Hst' in Hst''. injection Hst'' as <-.
  split.
  2:{ rewrite fmap_app. simpl. rewrite app_comm_cons, last_snoc. by rewrite Hfinal. }
  intros other state Hother. destruct (decide (other = instanceId)) as [->|Hne].
  - rewrite Hst' in Hother. injection Hother as <-.
    split; [eapply appends_NoDup; [exact Happ|by apply (Hinv instanceId)]|].
    intros h Hh.
    destruct (ev_data final.1) as [| |h' s|s|sid err]; try done.
    + destruct Hlast as (_ & _ & Hpending & step & result & _ & Hnew & Hexec & Hhuman).
      rewrite Hpending in Hh. injection Hh as <-.
      by rewrite (Hown _ _ _ _ Hexec Hhuman).
    + destruct Hlast as (_ & _ & Hpending). congruence.
    + destruct Hlast as (_ & Hpending). congruence.
  - destruct (Hothers other Hne) as [Hs Hp]. rewrite Hs in Hother. rewrite Hp.
    by apply Hinv.
Qed.

Lemma history_no_repeats h e :
  history executeStep h → last h = Some e → no_repeats e.
Proof.
  intros Hh. revert e.
  induction Hh as [|h e0 workflow Hh IH Hlast0
                   |h e0 workflowId instanceId initialData e' obs Hh IH Hlast0 Hfresh Hstart
                   |h e0 instanceId input e' obs Hh IH Hlast0 Hinput]; intros e Hlast.
  - injection Hlast as <-. intros ? ? Hst. simpl in Hst. by rewrite lookup_empty in Hst.
  - rewrite last_snoc in Hlast. injection Hlast as <-.
    intros other state Hst. by apply (IH e0 Hlast0 other state).
  - pose proof (history_sound _ _ Hh) as [_ Hcons].
    pose proof (Forall_last _ _ _ Hcons Hlast0) as Hcons0.
    apply startWorkflow_Returned in Hstart as (_ & _ & Hloop).
    apply executeNextStep_no_repeats in Hloop as [Hinv Hend].
    + rewrite last_app_cons, Hend in Hlast. by injection Hlast as <-.
    + simpl. by apply consistent_fresh.
    + intros other state. simpl. destruct (decide (other = instanceId)) as [->|Hne].
      * rewrite lookup_insert_eq. intros [= <-]. simpl. split; [constructor|].
        intros h'. by rewrite (consistent_fresh _ _ Hcons0 Hfresh).
      * rewrite lookup_insert_ne by done. by apply (IH e0 Hlast0).
  - apply provideHumanInput_Returned in Hinput
      as (state & pendingInput & obs' & Hst & Hpend & Hpaused & -> & Hloop).
    apply executeNextStep_no_repeats in Hloop as [Hinv Hend].
    + assert (Some e' = Some e) as [= <-]; [|done].
      rewrite <- Hend, <- Hlast. symmetry. apply (last_app_cons h).
    + simpl. apply lookup_delete_eq.
    + destruct (IH e0 Hlast0 instanceId state Hst) as [Hnodup Hnew].
      intros other st. simpl. destruct (decide (other = instanceId)) as [->|Hne].
      * rewrite lookup_insert_eq, lookup_delete_eq. intros [= <-]. simpl.
        split; [|done]. apply NoDup_app. split; [done|]. split.
        -- intros x Hx ->%list_elem_of_singleton. by eapply Hnew.
        -- apply NoDup_singleton.
      * rewrite lookup_insert_ne, lookup_delete_ne by done. by apply (IH e0 Hlast0).
Qed.

End NoRepeats.
(** * Further properties of the workflow engine, stated for its callers *)

Section EngineExtras.
Variable executeStep : WorkflowStep → WorkflowState → StepResult + Thrown.

(** X1. [startWorkflow] throws exactly when no definition is registered
    under the id; it then leaves the engine as it was and emits
    nothing. Otherwise it returns the identifier it was given by
    [uuidv4()]. *)
Theorem startWorkflow_not_found e workflowId instanceId initialData :
  ∃ e' obs r,
    startWorkflow executeStep e workflowId instanceId initialData
      = Some (e', obs, r) ∧
    (r = Threw (NotFound workflowId) ↔ workflows e !! workflowId = None) ∧
    (r = Returned instanceId ↔ is_Some (workflows e !! workflowId)) ∧
    (∀ err, r = Threw err → err = NotFound workflowId ∧ e' = e ∧ obs = []).
Proof.
  unfold startWorkflow. destruct (workflows e !! workflowId) as [workflow|].
  - match goal with |- context [run_loop _ ?e1 ?i] =>
      destruct (run_loop_returns executeStep e1 i) as [[e2 obs2] ->] end.
    simpl. eexists _, _, _. split; [done|]. repeat split; try done.
  - eexists _, _, _. split; [done|]. split; [done|].
    split; [split; [done|by intros [? ?]]|]. by intros err [= <-].
Qed.


(** Every call returns, and touches one instance only. *)
Lemma invoke_leaves_others e call :
  ∃ e' obs r,
    invoke executeStep e call = Some (e', obs, r) ∧
    (∀ other, call_instance call ≠ Some other →
       states e' !! other = states e !! other ∧
       pendingHumanInputs e' !! other = pendingHumanInputs e !! other) ∧
    workflows e' = match call with
                   | call_registerWorkflow workflow =>
                       <[wf_id workflow := workflow]> (workflows e)
                   | _ => workflows e
                   end.
Proof.
  destruct call as [workflow|workflowId uuid initialData|instanceId input]; simpl.
  - by eexists _, _, _.
  - unfold startWorkflow. destruct (workflows e !! workflowId) as [workflow|].
    2:{ simpl. by eexists _, _, _. }
    match goal with |- context [run_loop _ ?e1 ?i] =>
      destruct (run_loop_returns executeStep e1 i) as [[e2 obs2] Hloop] end.
    rewrite Hloop. simpl. eexists _, _, _. split; [done|].
    apply executeNextStep_grows in Hloop as (Hwfs & Hothers & _).
    split; [|done]. intros other Hne.
    destruct (Hothers other) as [-> ->]; [congruence|]. simpl.
    rewrite lookup_insert_ne by congruence. done.
  - unfold provideHumanInput.
    destruct (states e !! instanceId) as [state|]; [|simpl; by eexists _, _, _].
    destruct (pendingHumanInputs e !! instanceId) as [pendingInput|];
      [|simpl; by eexists _, _, _].
    case_decide; [|simpl; by eexists _, _, _].
    match goal with |- context [run_loop _ ?e1 ?i] =>
      destruct (run_loop_returns executeStep e1 i) as [[e2 obs2] Hloop] end.
    rewrite Hloop. simpl. eexists _, _, _. split; [done|].
    apply executeNextStep_grows in Hloop as (Hwfs & Hothers & _).
    split; [|done]. intros other Hne.
    destruct (Hothers other) as [-> ->]; [congruence|]. simpl.
    rewrite lookup_insert_ne, lookup_delete_ne by congruence. done.
Qed.


(** X5. No call removes an instance or shortens its history: an
    instance that exists before a call - other than a [startWorkflow]
    that is given its identifier again - exists after it with the same
    identifier and definition, and its completed steps before the call
    are a prefix of its completed steps after it. *)
Theorem completed_steps_only_grow e call instanceId state :
  states e !! instanceId = Some state →
  (∀ workflowId initialData, call ≠ call_startWorkflow workflowId instanceId initialData) →
  ∃ e' obs r state',
    invoke executeStep e call = Some (e', obs, r) ∧
    states e' !! instanceId = Some state' ∧
    st_id state' = st_id state ∧ workflowId state' = workflowId state ∧
    completedSteps state `prefix_of` completedSteps state'.
Proof.
  intros Hst Hcall.
  destruct (decide (call_instance call = Some instanceId)) as [Hsame|Hother].
  - destruct call as [workflow|workflowId uuid initialData|other input];
      simpl in Hsame; simplify_eq; [by destruct (Hcall workflowId initialData)|].
    simpl. unfold provideHumanInput. rewrite Hst.
    destruct (pendingHumanInputs e !! instanceId) as [pendingInput|];
      [|simpl; by eexists _, _, _, _].
    case_decide; [|simpl; by eexists _, _, _, _].
    match goal with |- context [run_loop _ ?e1 ?i] =>
      destruct (run_loop_returns executeStep e1 i) as [[e2 obs2] Hloop] end.
    rewrite Hloop. simpl.
    apply executeNextStep_grows in Hloop as (_ & _ & Hgrow).
    edestruct Hgrow as (st' & Hst' & Hid & Hwid & Hprefix & _).
    { simpl. apply lookup_insert_eq. }
    eexists _, _, _, st'. split; [done|]. split; [done|].
    split; [done|]. split; [done|].
    etrans; [|exact Hprefix]. simpl. by apply prefix_app_r.
  - destruct (invoke_leaves_others e call)
      as (e' & obs & r & Hcall' & Hothers & _).
    destruct (Hothers instanceId Hother) as [Hst' _].
    exists e', obs, r, state. rewrite Hst'. done.
Qed.

(** X7. The completed steps of an instance that [startWorkflow] returns
    are in dependency order: every entry is the id of a step of the
    definition that was not completed before and whose declared
    dependencies all come earlier in the list. *)
Theorem startWorkflow_dependency_order e workflowId workflow instanceId initialData :
  workflows e !! workflowId = Some workflow →
  ∃ e' obs state,
    startWorkflow executeStep e workflowId instanceId initialData
      = Some (e', obs, Returned instanceId) ∧
    states e' !! instanceId = Some state ∧
    NoDup (completedSteps state) ∧
    ∀ i id, completedSteps state !! i = Some id →
      ∃ step, step ∈ steps workflow ∧ step_id step = id ∧
              ∀ dep, dep ∈ default [] (dependencies step) →
                     dep ∈ take i (completedSteps state).
Proof.
  intros Hwf. unfold startWorkflow. rewrite Hwf.
  set (e1 := put_state instanceId (initial_state instanceId workflowId initialData) e).
  destruct (run_loop_returns executeStep e1 instanceId) as [[e2 obs2] Hloop].
  rewrite Hloop. simpl.
  destruct (executeNextStep_progress _ _ _ _ _ workflow _ _ Hloop
              (put_state_lookup _ _ _) Hwf)
    as (_ & _ & st' & Hst' & _ & _ & Happ & _).
  simpl in Happ. exists e2, obs2, st'. split; [done|]. split; [done|]. split.
  - eapply appends_NoDup; [exact Happ|constructor].
  - intros i id Hid.
    destruct (appends_ordered _ _ _ Happ i id) as (step & ? & ? & _ & ?);
      [simpl; lia|done|]. by exists step.
Qed.

End EngineExtras.
Lemma on_events_cons b o obs :
  on_events b (o :: obs) = on_event b o.1 ++ on_events b obs.
Proof. reflexivity. Qed.

Lemma on_events_app b obs1 obs2 :
  on_events b (obs1 ++ obs2) = on_events b obs1 ++ on_events b obs2.
Proof. unfold on_events. apply bind_app. Qed.

Lemma on_events_goes_on b body :
  Forall (λ o : Obs, goes_on_after (ev_data o.1) = true) body →
  on_events b body = [].
Proof.
  induction 1 as [|o body Ho _ IH]; [done|].
  rewrite on_events_cons, IH. unfold on_event.
  destruct b; [|done]. by destruct (ev_data o.1).
Qed.

Lemma on_events_without_interface obs : on_events false obs = [].
Proof. induction obs as [|o obs IH]; [done|]. by rewrite on_events_cons, IH. Qed.

#[local] Arguments on_events : simpl never.

Section Notifications.
Variable executeStep : WorkflowStep → WorkflowState → StepResult + Thrown.

(** The listeners of the framework are called for the last event of a
    run of the loop, and for that one only. *)
Lemma on_events_loop fuel e instanceId st workflow e' obs :
  executeNextStep executeStep fuel e instanceId = Some (e', obs) →
  states e !! instanceId = Some st →
  workflows e !! workflowId st = Some workflow →
  ∃ call state,
    on_events true obs = [call] ∧
    states e' !! instanceId = Some state ∧
    match call with
    | requestInput w h =>
        w = instanceId ∧ status state = paused ∧
        pendingHumanInputs e' !! instanceId = Some h
    | notifyWorkflowComplete w s =>
        w = instanceId ∧ s = state ∧ status state = completed
    | notifyWorkflowError w _ => w = instanceId ∧ status state = failed
    end.
Proof.
  intros Hrun Hst Hwf.
  destruct (executeNextStep_outcome _ _ _ _ _ _ _ _ Hrun Hst Hwf)
    as (body & final & st' & -> & Hbody & Hids & _ & Hst' & Hlast).
  apply Forall_app in Hids as [_ Hid]. apply Forall_cons in Hid as [Hid _].
  rewrite on_events_app, (on_events_goes_on _ _ Hbody), on_events_cons.
  unfold on_event. rewrite Hid. simpl.
  destruct (ev_data final.1) as [| |h s|s|sid err]; try done; eexists _, st'; simpl;
    (split; [done|]); (split; [done|]).
  - by destruct Hlast as (_ & ? & ? & _).
  - by destruct Hlast as (-> & ? & _).
  - by destruct Hlast as (? & _).
Qed.

End Notifications.

Section FrameworkExtras.
Variable executeStep : WorkflowStep → WorkflowState → StepResult + Thrown.

(** X3. With the default [executeStep], a definition without a step of
    type 'human' never pauses: [startWorkflow] returns with the instance
    completed or failed and records no pending input for it. *)
Theorem no_human_step_never_pauses e workflowId workflow instanceId initialData :
  workflows e !! workflowId = Some workflow →
  Forall (λ s, step_type s ≠ "human") (steps workflow) →
  ∃ e' obs state,
    startWorkflow executeStep_default e workflowId instanceId initialData
      = Some (e', obs, Returned instanceId) ∧
    states e' !! instanceId = Some state ∧
    (status state = completed ∨ status state = failed) ∧
    pendingHumanInputs e' !! instanceId = pendingHumanInputs e !! instanceId.
Proof.
  intros Hwf Hnohuman. unfold startWorkflow. rewrite Hwf.
  set (e1 := put_state instanceId (initial_state instanceId workflowId initialData) e).
  destruct (run_loop_returns executeStep_default e1 instanceId) as [[e2 obs2] Hloop].
  rewrite Hloop. simpl.
  destruct (executeNextStep_outcome _ _ _ _ _ workflow _ _ Hloop
              (put_state_lookup _ _ _) Hwf)
    as (body & final & st' & -> & _ & _ & _ & Hst' & Hlast).
  exists e2, (body ++ [final]), st'. split; [done|]. split; [done|].
  destruct (ev_data final.1) as [| |h s|s|sid err]; try done.
  - destruct Hlast as (_ & _ & _ & step & result & Hin & _ & Hexec & Hhuman).
    apply executeStep_default_human with (h := h) in Hexec as [Htype _]; [|done].
    rewrite Forall_forall in Hnohuman. by destruct (Hnohuman step Hin).
  - destruct Hlast as (_ & Hcompleted & Hpending). by split; [left|].
  - destruct Hlast as (Hfailed & Hpending). by split; [right|].
Qed.

(** X6. No step is completed twice. In the engine after any sequence of
    calls, when the human-input requests of [executeStep] carry the id
    of the asking step (as those of the default one do), the completed
    steps of every instance are without repetition and do not contain
    the step whose answer is pending. *)
Theorem completed_steps_never_repeat h e instanceId state :
  own_requests executeStep →
  history executeStep h → last h = Some e →
  states e !! instanceId = Some state →
  NoDup (completedSteps state) ∧
  ∀ request, pendingHumanInputs e !! instanceId = Some request →
             hi_stepId request ∉ completedSteps state.
Proof.
  intros Hown Hh Hlast Hst. by eapply (history_no_repeats executeStep Hown h e).
Qed.

(** X8. An accepted answer is kept. When [provideHumanInput] finds the
    instance paused with a pending request, it returns normally; its
    first event is [step_completed] for the step of the request, with
    the answer; afterwards that step is among the completed steps and
    the step data of that step is an object that holds the properties
    it had before and the answer under [humanInput] - whatever steps
    the resumed loop ran after it. *)
Theorem provideHumanInput_keeps_answer e instanceId input state request :
  states e !! instanceId = Some state →
  pendingHumanInputs e !! instanceId = Some request →
  status state = paused →
  ∃ e' first obs state',
    provideHumanInput executeStep e instanceId input
      = Some (e', first :: obs, Returned ()) ∧
    ev_data first.1 = step_completed (hi_stepId request) input ∧
    states e' !! instanceId = Some state' ∧
    (completedSteps state ++ [hi_stepId request]) `prefix_of` completedSteps state' ∧
    stepData state' !! hi_stepId request
      = Some (VObj (<["humanInput" := input]>
                      (spread (prop (stepData state) (hi_stepId request))))).
Proof.
  intros Hst Hpend Hpaused. unfold provideHumanInput. rewrite Hst, Hpend.
  rewrite decide_True by done.
  match goal with |- context [run_loop _ ?e1 ?i] =>
    destruct (run_loop_returns executeStep e1 i) as [[e2 obs2] Hloop] end.
  rewrite Hloop. simpl.
  apply executeNextStep_grows in Hloop as (_ & _ & Hgrow).
  edestruct Hgrow as (st' & Hst' & _ & _ & Hprefix & Hdata).
  { simpl. apply lookup_insert_eq. }
  eexists _, _, _, st'. split; [done|]. split; [done|]. split; [done|].
  split; [done|]. rewrite Hdata.
  - simpl. apply lookup_insert_eq.
  - simpl. apply elem_of_app. right. constructor.
Qed.



End FrameworkExtras.
(** * The further properties of the engine at concrete inputs *)


(** X3 at an input: the definition with the step of unknown type. *)
Lemma no_human_step_never_pauses_witness :
  ∃ e' obs state,
    startWorkflow executeStep_default (registerWorkflow bogusWorkflow new_engine)
      "with-bogus-step" "i1" None = Some (e', obs, Returned "i1") ∧
    states e' !! "i1" = Some state ∧
    (status state = completed ∨ status state = failed) ∧
    pendingHumanInputs e' !! "i1" = None.
Proof.
  apply (no_human_step_never_pauses (registerWorkflow bogusWorkflow new_engine)
           "with-bogus-step" bogusWorkflow "i1" None).
  - reflexivity.
  - repeat constructor; discriminate.
Defined.

(** X5 at an input: the answer to the review of the approval
    workflow. *)
Lemma completed_steps_only_grow_witness :
  ∃ e' obs r state',
    invoke executeStep_default paused_engine
      (call_provideHumanInput "i1" (VStr "yes")) = Some (e', obs, r) ∧
    states e' !! "i1" = Some state' ∧
    st_id state' = st_id paused_state ∧
    workflowId state' = workflowId paused_state ∧
    completedSteps paused_state `prefix_of` completedSteps state'.
Proof.
  apply (completed_steps_only_grow executeStep_default paused_engine
           (call_provideHumanInput "i1" (VStr "yes")) "i1" paused_state).
  - vm_compute. reflexivity.
  - discriminate.
Defined.

(** X6 at an input: the approval workflow, started and answered. *)
Lemma completed_steps_never_repeat_witness :
  let e := default new_engine (last (replay executeStep_default approval_calls)) in
  let state := default paused_state (states e !! "i1") in
  NoDup (completedSteps state) ∧
  ∀ request, pendingHumanInputs e !! "i1" = Some request →
             hi_stepId request ∉ completedSteps state.
Proof.
  intros e state.
  apply (completed_steps_never_repeat executeStep_default
           (replay executeStep_default approval_calls) e "i1" state).
  - apply executeStep_default_own_requests.
  - apply replay_history.
  - vm_compute. reflexivity.
  - vm_compute. reflexivity.
Defined.

(** X7 at an input: the start of the approval workflow. *)
Lemma startWorkflow_dependency_order_witness :
  ∃ e' obs state,
    startWorkflow executeStep_default approval_engine "simple-approval" "i1" None
      = Some (e', obs, Returned "i1") ∧
    states e' !! "i1" = Some state ∧
    NoDup (completedSteps state) ∧
    ∀ i id, completedSteps state !! i = Some id →
      ∃ step, step ∈ steps simpleWorkflow ∧ step_id step = id ∧
              ∀ dep, dep ∈ default [] (dependencies step) →
                     dep ∈ take i (completedSteps state).
Proof.
  apply (startWorkflow_dependency_order executeStep_default approval_engine
           "simple-approval" simpleWorkflow "i1" None).
  reflexivity.
Defined.

(** X8 at an input: the answer 'yes' to the review. *)
Lemma provideHumanInput_keeps_answer_witness :
  ∃ e' first obs state',
    provideHumanInput executeStep_default paused_engine "i1" (VStr "yes")
      = Some (e', first :: obs, Returned ()) ∧
    ev_data first.1 = step_completed "human-review" (VStr "yes") ∧
    states e' !! "i1" = Some state' ∧
    (["collect-info"] ++ ["human-review"]) `prefix_of` completedSteps state' ∧
    stepData state' !! "human-review"
      = Some (VObj {[ "humanInput" := VStr "yes" ]}).
Proof.
  apply (provideHumanInput_keeps_answer executeStep_default paused_engine "i1"
           (VStr "yes") paused_state paused_request);
    vm_compute; reflexivity.
Defined.



Section EventLog.
Variable executeStep : WorkflowStep → WorkflowState → StepResult + Thrown.

(** A run of the loop appends to the completed steps the ids of its
    [step_completed] events. *)
Lemma executeNextStep_completions fuel e instanceId st e' obs :
  executeNextStep executeStep fuel e instanceId = Some (e', obs) →
  states e !! instanceId = Some st →
  ∃ st', states e' !! instanceId = Some st' ∧
         completedSteps st' = completedSteps st ++ completions obs.
Proof.
  revert e st e' obs.
  induction fuel as [|fuel IH]; intros e st e' obs Hrun Hst;
    simpl in Hrun; rewrite Hst in Hrun.
  all: destruct (workflows e !! workflowId st) as [workflow|];
    [|injection Hrun as <- <-; exists st; by rewrite app_nil_r].
  all: destruct (findNextStep workflow st) as [nextStep|];
    [|injection Hrun as <- <-; eexists; simpl; rewrite lookup_insert_eq;
      split; [done|]; by rewrite app_nil_r].
  all: destruct (executeStep nextStep _) as [result|thrown];
    [|injection Hrun as <- <-; eexists; simpl; rewrite lookup_insert_eq;
      split; [done|]; by rewrite app_nil_r].
  all: destruct (requiresHuman result) as [h|];
    [injection Hrun as <- <-; eexists; simpl; rewrite lookup_insert_eq;
      split; [done|]; by rewrite app_nil_r|].
  all: destruct (success result);
    [|injection Hrun as <- <-; eexists; simpl; rewrite lookup_insert_eq;
      split; [done|]; by rewrite app_nil_r].
  { discriminate. }
  destruct (executeNextStep _ _ _ _) as [[e3 obs3]|] eqn:Hrec; [|done].
  simpl in Hrun. injection Hrun as <- <-.
  eapply IH in Hrec as (st' & Hst' & Hdone); [|apply put_state_lookup].
  exists st'. split; [done|]. rewrite Hdone.
  unfold completions. destruct (truthy (data result)); simpl;
    by rewrite <- app_assoc.
Qed.

(** X11. The [step_completed] events of a call are a log of what it
    completed. After a [startWorkflow] that returns, the completed steps
    of the new instance are the step ids of the [step_completed] events
    of the call, in the order of the events; after a
    [provideHumanInput] that returns they are the steps completed
    before followed by those ids. *)
Theorem step_completed_events_log_completions e call instanceId :
  call_instance call = Some instanceId →
  ∃ e' obs r,
    invoke executeStep e call = Some (e', obs, r) ∧
    (r = None →
     ∃ state',
       states e' !! instanceId = Some state' ∧
       completedSteps state'
       = match call with
         | call_provideHumanInput _ _ =>
             from_option completedSteps [] (states e !! instanceId)
         | _ => []
         end ++ completions obs).
Proof.
  intros Hcall.
  destruct call as [workflow|workflowId uuid initialData|other input];
    simpl in Hcall; simplify_eq; simpl.
  - unfold startWorkflow. destruct (workflows e !! workflowId) as [workflow|].
    2:{ simpl. by eexists _, _, _. }
    match goal with |- context [run_loop _ ?e1 ?i] =>
      destruct (run_loop_returns executeStep e1 i) as [[e2 obs2] Hloop] end.
    rewrite Hloop. simpl. eexists _, _, _. split; [done|]. intros _.
    eapply executeNextStep_completions in Hloop as (st' & Hst' & Hdone);
      [|apply put_state_lookup].
    by exists st'.
  - unfold provideHumanInput.
    destruct (states e !! instanceId) as [state|]; [|simpl; by eexists _, _, _].
    destruct (pendingHumanInputs e !! instanceId) as [pendingInput|];
      [|simpl; by eexists _, _, _].
    case_decide; [|simpl; by eexists _, _, _].
    match goal with |- context [run_loop _ ?e1 ?i] =>
      destruct (run_loop_returns executeStep e1 i) as [[e2 obs2] Hloop] end.
    rewrite Hloop. simpl. eexists _, _, _. split; [done|]. intros _.
    eapply executeNextStep_completions in Hloop as (st' & Hst' & Hdone).
    2:{ simpl. apply lookup_insert_eq. }
    exists st'. split; [done|]. rewrite Hdone. simpl.
    unfold completions. simpl. by rewrite <- app_assoc.
Qed.

End EventLog.

(** X11 at an input: the answer 'yes' to the review of the approval
    workflow. *)
Lemma step_completed_events_log_completions_witness :
  ∃ e' obs r,
    invoke executeStep_default paused_engine (call_provideHumanInput "i1" (VStr "yes"))
      = Some (e', obs, r) ∧
    (r = None →
     ∃ state',
       states e' !! "i1" = Some state' ∧
       completedSteps state' = ["collect-info"] ++ completions obs).
Proof.
  apply (step_completed_events_log_completions executeStep_default paused_engine
           (call_provideHumanInput "i1" (VStr "yes")) "i1").
  reflexivity.
Defined.
Import LLM.

(** * Properties of the dispatch manager *)

Lemma Map_has_get m k : Map_has m k = true ↔ is_Some (Map_get m k).
Proof. unfold Map_has. apply bool_decide_eq_true. Qed.

Lemma Map_get_set m k v k' :
  Map_get (Map_set m k v) k' = if decide (k = k') then Some v else Map_get m k'.
Proof.
  induction m as [|[k0 v0] m IH]; simpl.
  - done.
  - destruct (decide (k0 = k)) as [->|Hne]; simpl.
    + by destruct (decide (k = k')).
    + destruct (decide (k0 = k')) as [->|Hne'].
      * by rewrite decide_False by done.
      * exact IH.
Qed.

Lemma Map_has_set m k v k' :
  Map_has m k' = true → Map_has (Map_set m k v) k' = true.
Proof.
  rewrite !Map_has_get, Map_get_set. by destruct (decide (k = k')).
Qed.

(** The first element of a list at which a loop stops is unique. *)
Lemma first_stop_unique {A} (P : A → Prop) b1 x1 a1 b2 x2 a2 :
  b1 ++ x1 :: a1 = b2 ++ x2 :: a2 →
  Forall (λ y, ¬ P y) b1 → P x1 → Forall (λ y, ¬ P y) b2 → P x2 →
  b1 = b2 ∧ x1 = x2 ∧ a1 = a2.
Proof.
  revert b2. induction b1 as [|y b1 IH]; intros [|z b2] Heq Hb1 Hx1 Hb2 Hx2;
    simpl in Heq; simplify_eq.
  - done.
  - by apply Forall_cons in Hb2 as [? _].
  - by apply Forall_cons in Hb1 as [? _].
  - apply Forall_cons in Hb1 as [_ Hb1]. apply Forall_cons in Hb2 as [_ Hb2].
    destruct (IH b2) as (? & ? & ?); try done. by subst.
Qed.

Section ChatLoop.
Variable m : LLMManager.
Variable messages : list LLMMessage.
Variable options : option LLMOptions.
Variable lastType : option LLMProviderType.

(** The shape of every run of the loop over constructed providers whose
    last entry is the one compared with. *)
Lemma chat_loop_shape toTry :
  toTry ≠ [] → last toTry = lastType →
  Forall (λ t, is_Some (Map_get (providers m) t)) toTry →
  ∃ tried t rest p,
    toTry = tried ++ t :: rest ∧
    Forall (goes_on m messages options lastType) tried ∧
    Map_get (providers m) t = Some p ∧
    ((∃ response,
        chat p messages options = inl response ∧
        chat_loop lastType toTry m messages options
          = (m, failure_lines m messages options tried
                ++ [Attempting t; Successful t], inl response)) ∨
     (∃ err,
        chat p messages options = inr err ∧ Some t = lastType ∧
        chat_loop lastType toTry m messages options
          = (m, failure_lines m messages options tried
                ++ [Attempting t; Failed t err], inr (AllProvidersFailed err)))).
Proof.
  induction toTry as [|t rest IH]; [done|]. intros _ Hlast Hall.
  apply Forall_cons in Hall as [[p Hp] Hall]. simpl. rewrite Hp.
  destruct (chat p messages options) as [response|err] eqn:Hchat.
  - exists [], t, rest, p. split; [done|]. split; [constructor|]. split; [done|].
    left. exists response. split; [done|reflexivity].
  - destruct (decide (Some t = lastType)) as [Heq|Hne].
    + exists [], t, rest, p. split; [done|]. split; [constructor|]. split; [done|].
      right. exists err. split; [done|]. split; [done|reflexivity].
    + destruct rest as [|t' rest'].
      { simpl in Hlast. congruence. }
      destruct IH as (tried & t0 & rest0 & p0 & Hsplit & Htried & Hp0 & Hrun);
        [done|done|done|].
      assert (Hgo : goes_on m messages options lastType t).
      { split; [|done]. exists err. unfold answer. rewrite Hp. simpl. by rewrite Hchat. }
      assert (Hans : answer m messages options t = Some (inr err)).
      { unfold answer. rewrite Hp. simpl. by rewrite Hchat. }
      exists (t :: tried), t0, rest0, p0. rewrite Hsplit.
      split; [done|]. split; [by constructor|]. split; [done|].
      destruct Hrun as [(response & Hr & Hloop)|(err0 & Hr & Heq0 & Hloop)].
      * left. exists response. split; [done|].
        rewrite <- Hsplit, Hloop. unfold failure_lines. simpl. by rewrite Hans.
      * right. exists err0. split; [done|]. split; [done|].
        rewrite <- Hsplit, Hloop. unfold failure_lines. simpl. by rewrite Hans.
Qed.

End ChatLoop.

Lemma providersToTry_constructed m :
  initialized m →
  Forall (λ t, is_Some (Map_get (providers m) t)) (providersToTry m).
Proof.
  intros Hinit. constructor; [by apply Map_has_get|].
  apply Forall_forall. intros t [Hhas _]%list_elem_of_filter.
  by apply Map_has_get.
Qed.

Lemma attempts_app l1 l2 : attempts (l1 ++ l2) = attempts l1 ++ attempts l2.
Proof. unfold attempts. apply omap_app. Qed.

Lemma attempts_failures m messages options lastType tried :
  Forall (goes_on m messages options lastType) tried →
  attempts (failure_lines m messages options tried) = tried.
Proof.
  induction 1 as [|t tried [[err Herr] _] _ IH]; [done|].
  unfold failure_lines in *. simpl. rewrite Herr. simpl. by rewrite IH.
Qed.
Lemma chat_loop_manager lastType toTry m messages options :
  (chat_loop lastType toTry m messages options).1.1 = m.
Proof.
  induction toTry as [|t rest IH]; simpl; [done|].
  destruct (Map_get (providers m) t) as [p|]; [|done].
  destruct (chat p messages options) as [response|err]; [done|].
  case_decide; [done|].
  destruct (chat_loop lastType rest m messages options) as [[m' log] r]. done.
Qed.

Lemma initialize_entries_keep f available entries m :
  let m1 := foldl (initialize_entry f available) m entries in
  primaryProvider m1 = primaryProvider m ∧
  fallbackProviders m1 = fallbackProviders m ∧
  ∀ t, Map_has (providers m) t = true → Map_has (providers m1) t = true.
Proof.
  revert m. induction entries as [|[t [cfg|]] entries IH]; intros m; simpl.
  - done.
  - destruct (bool_decide (t ∈ available)); [|apply IH].
    destruct (createProvider f t cfg) as [p|err]; [|apply IH].
    destruct (IH (set_provider t p m)) as (Hp & Hf & Hhas).
    split; [done|]. split; [done|]. intros t' Ht'. apply Hhas. simpl.
    by apply Map_has_set.
  - apply IH.
Qed.

Lemma initialize_keeps_primary f config m :
  initialized m → primaryProvider (initialize f config m).1 = primaryProvider m.
Proof.
  intros Hinit. unfold initialize.
  destruct (initialize_entries_keep f (getAvailableProvidersAsync f)
              (cfg_providers config) m) as (Hp & _ & Hhas).
  case_bool_decide; [done|].
  rewrite Hp, (Hhas _ Hinit). done.
Qed.

(** [initialize] makes an initialized manager or throws. *)
Lemma initialize_initialized f config m :
  let r := initialize f config m in
  r.2 = None → initialized r.1.
Proof.
  unfold initialize.
  set (m1 := foldl _ m (cfg_providers config)).
  case_bool_decide as Hsize; [done|]. intros _.
  destruct (Map_has (providers m1) (primaryProvider m1)) eqn:Hhas; [done|].
  unfold getAvailableProviders, Map_keys.
  destruct (providers m1) as [|[first p] rest] eqn:Hprov; [done|].
  unfold initialized. simpl. rewrite Hprov. unfold Map_has. simpl.
  rewrite decide_True by done. by apply bool_decide_eq_true.
Qed.

(** The Gemini adapter writes its name into its responses. *)
Lemma GeminiProvider_names_itself sdk config :
  names_itself (GeminiProvider sdk config).
Proof.
  intros messages options response. simpl. unfold gemini_chat.
  destruct sdk as [sdk|]; [|done].
  destruct (gemini_request _ _ _) as [request|t]; [|done].
  destruct (sendMessage sdk _ request) as [result|t]; [|done].
  by intros [= <-].
Qed.

(** The conversion of the messages does not look at system messages. *)
Lemma convert_ignores_system messages :
  convert messages = convert (filter (λ m, msg_role m ≠ system) messages).
Proof.
  unfold convert. generalize (@nil GeminiContent, "").
  induction messages as [|message messages IH]; intros acc; [done|].
  rewrite filter_cons. simpl.
  destruct (msg_role message) eqn:Hrole.
  - rewrite decide_False by (intros Hne; by apply Hne).
    rewrite <- IH. f_equal. destruct acc. unfold convert_step. by rewrite Hrole.
  - rewrite decide_True by done. simpl. apply IH.
  - rewrite decide_True by done. simpl. apply IH.
Qed.
Lemma OpenAIProvider_names_itself sdk config :
  names_itself (OpenAIProvider sdk config).
Proof.
  intros messages options response. simpl. unfold openai_chat.
  destruct sdk as [sdk|]; [|done].
  destruct (completions_create sdk _ _ _) as [result|t]; [|done].
  by intros [= <-].
Qed.

Lemma AnthropicProvider_names_itself sdk config :
  names_itself (AnthropicProvider sdk config).
Proof.
  intros messages options response. simpl. unfold anthropic_chat.
  destruct sdk as [sdk|]; [|done].
  destruct (messages_create sdk _ _ _) as [result|t]; [|done].
  by intros [= <-].
Qed.

(** The Anthropic adapter keeps the text of a system message: it is the
    field [system] of the request. *)
Lemma anthropic_keeps_system_message config options :
  areq_system (anthropic_request config french_hello options)
  = Some "Answer in French.".
Proof. reflexivity. Qed.

Lemma builtin_createProvider o a g t config p :
  createProvider (builtin_factory o a g) t config = inl p →
  names_itself p ∧ name p = type_name t.
Proof.
  unfold createProvider. destruct t; simpl; case_bool_decide; try done;
    intros [= <-]; split; try done.
  - apply OpenAIProvider_names_itself.
  - apply AnthropicProvider_names_itself.
  - apply GeminiProvider_names_itself.
Qed.

Lemma well_named_get m t p :
  well_named m → Map_get m t = Some p → names_itself p ∧ name p = type_name t.
Proof.
  induction 1 as [|[t' p'] m Hentry _ IH]; simpl; [done|].
  case_decide as Heq; [|done]. intros [= <-]. by subst.
Qed.

Lemma well_named_set m t p :
  well_named m → names_itself p ∧ name p = type_name t →
  well_named (Map_set m t p).
Proof.
  intros Hm Hp. induction Hm as [|[t' p'] m Hentry Hm IH]; simpl.
  - constructor; [done|constructor].
  - case_decide; constructor; done.
Qed.

(** A manager made by [create] with the built-in adapters holds
    well-named providers. *)
Lemma create_well_named o a g config :
  well_named (providers (create (builtin_factory o a g) config).1).
Proof.
  unfold create, initialize.
  set (f := builtin_factory o a g).
  assert (Hfold : ∀ entries m,
    well_named (providers m) →
    well_named (providers (foldl (initialize_entry f (getAvailableProvidersAsync f))
                             m entries))).
  { induction entries as [|[t [cfg|]] entries IH]; intros m Hm; simpl; [done| |by apply IH].
    destruct (bool_decide _); [|by apply IH].
    destruct (createProvider f t cfg) as [p|err] eqn:Hcreate; [|by apply IH].
    apply IH. simpl. apply well_named_set; [done|].
    by eapply builtin_createProvider. }
  specialize (Hfold (cfg_providers config) (new_manager config)).
  case_bool_decide; [by apply Hfold; constructor|].
  destruct (Map_has _ _); [by apply Hfold; constructor|].
  destruct (getAvailableProviders _); simpl; by apply Hfold; constructor.
Qed.
(** * The claims about the dispatch manager *)

(** C3, as the code has it. For an initialized manager, [chat] calls the
    providers in the order of the list [primary] followed by the
    fallbacks that are constructed, without removing duplicates: the
    calls made are a prefix of that list. A response that [chat] returns
    is the response of the provider called last, as that provider
    returned it, every provider called before having failed; its
    provider field is written by the adapter, and with the built-in
    adapters it is the type of the succeeding provider. [chat] returns the response of the first
    provider of the list that succeeds when no failing entry before it
    equals the last entry of the list. *)
Theorem chat_tries_in_order m messages options :
  initialized m →
  ∃ log r,
    manager_chat m messages options = (m, log, r) ∧
    attempts log `prefix_of` providersToTry m ∧
    (∀ response, r = inl response →
       ∃ tried t p,
         attempts log = tried ++ [t] ∧
         Forall (λ t', ∃ err, answer m messages options t' = Some (inr err)) tried ∧
         Map_get (providers m) t = Some p ∧
         chat p messages options = inl response ∧
         (names_itself p → resp_provider response = name p) ∧
         (well_named (providers m) → resp_provider response = type_name t)) ∧
    (∀ tried t rest response,
       providersToTry m = tried ++ t :: rest →
       Forall (goes_on m messages options (last (providersToTry m))) tried →
       answer m messages options t = Some (inl response) →
       r = inl response ∧ attempts log = tried ++ [t]).
Proof.
  intros Hinit.
  destruct (chat_loop_shape m messages options (last (providersToTry m))
              (providersToTry m))
    as (tried & t & rest & p & Hsplit & Htried & Hp & Hrun);
    [done|done|by apply providersToTry_constructed|].
  assert (Hprefix : (tried ++ [t]) `prefix_of` providersToTry m).
  { rewrite Hsplit. exists rest. by rewrite <- app_assoc. }
  unfold manager_chat.
  destruct Hrun as [(response & Hchat & ->)|(err & Hchat & Hlast & ->)];
    eexists _, _; (split; [done|]);
    rewrite attempts_app, (attempts_failures _ _ _ _ _ Htried); simpl;
    (split; [done|]); split.
  - intros ? [= <-]. exists tried, t, p. split; [done|].
    split; [|split; [done|split; [done|split]]].
    + eapply Forall_impl; [exact Htried|]. by intros ? [? _].
    + intros Hname. by eapply Hname.
    + intros Hnamed. destruct (well_named_get _ _ _ Hnamed Hp) as [Hname <-].
      by eapply Hname.
  - intros tried' t' rest' response' Hsplit' Htried' Hanswer.
    destruct (first_stop_unique
                (λ t0, ¬ goes_on m messages options (last (providersToTry m)) t0)
                tried t rest tried' t' rest') as (-> & -> & ->).
    + congruence.
    + eapply Forall_impl; [exact Htried|]. tauto.
    + intros [[err Herr] _]. unfold answer in Herr. rewrite Hp in Herr.
      simpl in Herr. congruence.
    + eapply Forall_impl; [exact Htried'|]. tauto.
    + intros [[err Herr] _]. congruence.
    + unfold answer in Hanswer. rewrite Hp in Hanswer. simpl in Hanswer.
      split; [congruence|done].
  - done.
  - intros tried' t' rest' response' Hsplit' Htried' Hanswer. exfalso.
    destruct (first_stop_unique
                (λ t0, ¬ goes_on m messages options (last (providersToTry m)) t0)
                tried t rest tried' t' rest') as (-> & -> & ->).
    + congruence.
    + eapply Forall_impl; [exact Htried|]. tauto.
    + intros [_ Hne]. done.
    + eapply Forall_impl; [exact Htried'|]. tauto.
    + intros [[err' Herr] _]. congruence.
    + unfold answer in Hanswer. rewrite Hp in Hanswer. simpl in Hanswer.
      congruence.
Qed.

(** When every provider of the list fails, [chat] throws
    [AllProvidersFailed] with the error of the provider called last. *)
Lemma chat_all_fail m messages options :
  initialized m →
  Forall (λ t, ∃ err, answer m messages options t = Some (inr err))
         (providersToTry m) →
  ∃ log tried t err,
    manager_chat m messages options = (m, log, inr (AllProvidersFailed err)) ∧
    attempts log = tried ++ [t] ∧
    answer m messages options t = Some (inr err).
Proof.
  intros Hinit Hall.
  destruct (chat_loop_shape m messages options (last (providersToTry m))
              (providersToTry m))
    as (tried & t & rest & p & Hsplit & Htried & Hp & Hrun);
    [done|done|by apply providersToTry_constructed|].
  unfold manager_chat.
  destruct Hrun as [(response & Hchat & ->)|(err & Hchat & Hlast & ->)].
  - rewrite Hsplit in Hall. apply Forall_app in Hall as [_ Hall].
    apply Forall_cons in Hall as [[err Herr] _].
    unfold answer in Herr. rewrite Hp in Herr. simpl in Herr. congruence.
  - eexists _, tried, t, err. split; [done|].
    rewrite attempts_app, (attempts_failures _ _ _ _ _ Htried). simpl.
    split; [done|]. unfold answer. rewrite Hp. simpl. by rewrite Hchat.
Qed.

(** The first call of [chat] goes to the primary provider. *)
Lemma chat_calls_primary_first m messages options :
  initialized m →
  ∃ log r,
    manager_chat m messages options = (m, log, r) ∧
    head (attempts log) = Some (primaryProvider m).
Proof.
  intros Hinit.
  destruct (chat_loop_shape m messages options (last (providersToTry m))
              (providersToTry m))
    as (tried & t & rest & p & Hsplit & Htried & Hp & Hrun);
    [done|done|by apply providersToTry_constructed|].
  assert (Hhead : head (tried ++ [t]) = Some (primaryProvider m)).
  { unfold providersToTry in Hsplit. destruct tried; by injection Hsplit as <- _. }
  unfold manager_chat.
  destruct Hrun as [(response & Hchat & ->)|(err & Hchat & Hlast & ->)];
    eexists _, _; (split; [done|]);
    by rewrite attempts_app, (attempts_failures _ _ _ _ _ Htried).
Qed.

(** C10. [chat] returns the manager as it received it - primary
    provider, fallback list and constructed providers - whatever the
    outcome; the next [chat] of an initialized manager therefore calls
    the same primary provider first; and of all public methods only
    [switchPrimaryProvider] changes the primary provider of an
    initialized manager, and nothing else. *)
Theorem chat_leaves_manager_unchanged m messages options :
  (manager_chat m messages options).1.1 = m ∧
  (initialized m →
   ∀ messages' options',
     let m' := (manager_chat m messages options).1.1 in
     head (attempts (manager_chat m' messages' options').1.2)
       = Some (primaryProvider m)) ∧
  (initialized m →
   ∀ call, primaryProvider (after m call) ≠ primaryProvider m →
     ∃ provider, call = call_switchPrimaryProvider provider) ∧
  (∀ provider,
     let m' := (switchPrimaryProvider provider m).1 in
     providers m' = providers m ∧ fallbackProviders m' = fallbackProviders m ∧
     (Map_has (providers m) provider = true → primaryProvider m' = provider) ∧
     (Map_has (providers m) provider = false → m' = m)).
Proof.
  assert (Hframe : ∀ msgs opts, (manager_chat m msgs opts).1.1 = m).
  { intros msgs opts. apply chat_loop_manager. }
  split; [apply Hframe|]. split; [|split].
  - intros Hinit messages' options' m'. unfold m'. rewrite Hframe.
    by destruct (chat_calls_primary_first m messages' options' Hinit)
      as (log & r & -> & Hhead).
  - intros Hinit call Hchanged.
    destruct call as [f config|msgs opts|prompt opts| | |provider]; simpl in Hchanged.
    + by rewrite initialize_keeps_primary in Hchanged.
    + by rewrite Hframe in Hchanged.
    + unfold manager_prompt in Hchanged. by rewrite Hframe in Hchanged.
    + done.
    + done.
    + by exists provider.
  - intros provider. unfold switchPrimaryProvider.
    destruct (Map_has (providers m) provider); simpl; by repeat split.
Qed.
(** * The claims about the manager and the Gemini adapter at concrete inputs *)

(** C3 as the specification states it fails: a primary provider that is
    also listed as a fallback is called a second time. *)
Lemma primary_listed_as_fallback_is_called_again :
  initialized manager_primary_listed ∧
  attempts (manager_chat manager_primary_listed hello None).1.2
    = [openai; openai; anthropic] ∧
  ¬ NoDup (attempts (manager_chat manager_primary_listed hello None).1.2).
Proof.
  split; [reflexivity|].
  assert (Hcalls : attempts (manager_chat manager_primary_listed hello None).1.2
                   = [openai; openai; anthropic]) by reflexivity.
  split; [exact Hcalls|]. rewrite Hcalls. intros Hnodup.
  apply NoDup_cons in Hnodup as [Hnotin _]. apply Hnotin. constructor.
Qed.

(** C3 at an input: the fallback answers after the primary failed
    twice. *)
Lemma chat_tries_in_order_witness :
  ∃ log r,
    manager_chat manager_primary_listed hello None
      = (manager_primary_listed, log, r) ∧
    attempts log = [openai; openai; anthropic] ∧
    r = inl {| resp_content := "answer of anthropic"; resp_usage := None;
               resp_model := "m"; resp_provider := "anthropic" |}.
Proof.
  destruct (chat_tries_in_order manager_primary_listed hello None eq_refl)
    as (log & r & Hrun & _ & _ & Hfirst).
  exists log, r. split; [exact Hrun|].
  destruct (Hfirst [openai; openai] anthropic []
              {| resp_content := "answer of anthropic"; resp_usage := None;
                 resp_model := "m"; resp_provider := "anthropic" |})
    as [Hr Hcalls].
  - reflexivity.
  - repeat constructor; try (eexists; reflexivity); discriminate.
  - reflexivity.
  - split; [exact Hcalls|exact Hr].
Defined.

(** C7 at the failing input: after [switchPrimaryProvider('gemini')] on
    the configuration of the README, the list to try is gemini, openai,
    gemini. Gemini fails and equals the last entry of the list, so
    [chat] throws at once; openai, which would answer, is never
    called. *)
Theorem chat_gives_up_before_working_fallback :
  let m := (switchPrimaryProvider gemini manager_readme).1 in
  initialized m ∧
  providersToTry m = [gemini; openai; gemini] ∧
  (∃ response, answer m hello None openai = Some (inl response)) ∧
  manager_chat m hello None
    = (m, [Attempting gemini; Failed gemini "gemini API error: service unavailable"],
       inr (AllProvidersFailed "gemini API error: service unavailable")).
Proof.
  intros m. split; [reflexivity|]. split; [reflexivity|].
  split; [eexists; reflexivity|reflexivity].
Qed.

(** C10 at an input: after a call that fell back, the primary provider
    is called first again. *)
Lemma chat_leaves_manager_unchanged_witness :
  let m' := (manager_chat manager_primary_listed hello None).1.1 in
  m' = manager_primary_listed ∧
  head (attempts (manager_chat m' hello None).1.2) = Some openai.
Proof.
  intros m'.
  destruct (chat_leaves_manager_unchanged manager_primary_listed hello None)
    as (Hsame & Hagain & _).
  split; [exact Hsame|]. apply (Hagain eq_refl hello None).
Defined.

(** When the conversion leaves a user message to send, the request does
    not depend on the system messages. *)
Lemma gemini_request_ignores_system config messages options :
  (convert messages).2 ≠ "" →
  gemini_request config messages options
  = gemini_request config (filter (λ m, msg_role m ≠ system) messages) options.
Proof.
  intros Hlast. unfold gemini_request, gemini_message.
  rewrite <- convert_ignores_system.
  destruct (String.eqb_spec (convert messages).2 ""); done.
Qed.

(** C4 at the failing input: the request built for a system instruction
    followed by a user turn has an empty history and the user turn as
    its message; it is the request built without the system message,
    whose content is lost. *)
Theorem gemini_drops_system_message :
  let config := gemini_config stub_config in
  gemini_request config french_hello no_options
    = inl {| req_model := "gemini-1.5-pro"; req_history := [];
             req_generationConfig :=
               {| gen_temperature := (1 # 10)%Q;
                  gen_maxOutputTokens := (1000 # 1)%Q |};
             req_message := "Hello" |} ∧
  gemini_request config french_hello no_options
    = gemini_request config hello no_options ∧
  chat (GeminiProvider (Some echo_sdk) stub_config) french_hello None
    = chat (GeminiProvider (Some echo_sdk) stub_config) hello None.
Proof. intros config. repeat split; reflexivity. Qed.
(** * Further properties of the dispatch manager and the adapters *)

Lemma Factory_get_Some f t c : Factory_get f t = Some c → t ∈ f.*1.
Proof.
  induction f as [|[t' c'] f IH]; simpl; [done|].
  case_decide as Heq; [subst; intros _; apply list_elem_of_here|].
  intros Hget. apply list_elem_of_further. by apply IH.
Qed.

Lemma Map_get_keys m t : is_Some (Map_get m t) ↔ t ∈ Map_keys m.
Proof.
  unfold Map_keys. induction m as [|[t' p] m IH]; simpl.
  - split; [by intros [? ?]|by intros ?%elem_of_nil].
  - case_decide as Heq.
    + subst. split; [intros _; apply list_elem_of_here|by eexists].
    + rewrite IH, elem_of_cons. split; [by right|]. by intros [?|?].
Qed.

Lemma Map_set_keys m t p t' :
  t' ∈ Map_keys (Map_set m t p) ↔ t' = t ∨ t' ∈ Map_keys m.
Proof.
  rewrite <- !Map_get_keys, Map_get_set. case_decide; subst.
  - split; [by left|by eexists].
  - split; [by right|]. by intros [?|?].
Qed.

Lemma Map_set_NoDup m t p : NoDup (Map_keys m) → NoDup (Map_keys (Map_set m t p)).
Proof.
  unfold Map_keys. induction m as [|[t' p'] m IH]; simpl; intros Hnodup.
  - apply NoDup_singleton.
  - apply NoDup_cons in Hnodup as [Hnotin Hnodup]. case_decide as Heq; simpl.
    + subst. by apply NoDup_cons.
    + apply NoDup_cons. split; [|by apply IH].
      intros Hin. apply (Map_set_keys m t p t') in Hin as [?|?]; done.
Qed.

Lemma createProvider_available f type config :
  type ∈ getAvailableProvidersAsync f ↔
  ∃ c, Factory_get f type = Some c ∧ createProvider f type config = inl (construct c config).
Proof.
  unfold createProvider, getAvailableProvidersAsync, checkProviderAvailability.
  rewrite list_elem_of_filter. split.
  - intros [Havail _]. destruct (Factory_get f type) as [c|]; [|done].
    rewrite Havail. by exists c.
  - intros (c & Hget & Hcreate). rewrite Hget in *.
    destruct (default true (isAvailable c)); [|done].
    split; [done|]. by eapply Factory_get_Some.
Qed.


Lemma Map_set_fresh m t p :
  t ∉ Map_keys m → Map_keys (Map_set m t p) = Map_keys m ++ [t].
Proof.
  unfold Map_keys. induction m as [|[t' p'] m IH]; simpl; intros Hnotin; [done|].
  apply not_elem_of_cons in Hnotin as [Hne Hnotin].
  rewrite decide_False by done. cbn [fmap list_fmap fst app]. f_equal. by apply IH.
Qed.

(** What the loop of [initialize] does to the keys of the provider map
    when the configuration names no provider twice and none that is
    already constructed. *)
Lemma initialize_entries_keys f entries m :
  NoDup entries.*1 →
  (∀ t, t ∈ entries.*1 → t ∉ Map_keys (providers m)) →
  Map_keys (providers (foldl (initialize_entry f (getAvailableProvidersAsync f)) m entries))
  = Map_keys (providers m)
    ++ (filter (λ entry, is_Some entry.2 ∧ entry.1 ∈ getAvailableProvidersAsync f)
          entries).*1.
Proof.
  revert m. induction entries as [|[t cfg] entries IH]; intros m Hnodup Hfresh.
  { simpl. by rewrite app_nil_r. }
  simpl in Hnodup. apply NoDup_cons in Hnodup as [Hnotin Hnodup].
  rewrite filter_cons. cbn [foldl initialize_entry fst snd].
  destruct cfg as [cfg|].
  - case_bool_decide as Havail.
    + destruct (proj1 (createProvider_available f t cfg) Havail) as (c & _ & Hp).
      rewrite Hp. rewrite decide_True by (split; [by eexists|done]).
      rewrite IH; [|done|].
      * cbn [providers set_provider fst fmap list_fmap].
        rewrite Map_set_fresh; [by rewrite <- app_assoc|].
        apply Hfresh. apply list_elem_of_here.
      * intros t' Ht'. cbn [providers set_provider]. intros Hin.
        apply Map_set_keys in Hin as [->|Hin]; [done|].
        by apply (Hfresh t'); [apply list_elem_of_further|].
    + rewrite decide_False by (by intros [_ ?]).
      apply IH; [done|]. intros t' Ht'. apply Hfresh. by apply list_elem_of_further.
  - rewrite decide_False by (by intros [[? ?] _]).
    apply IH; [done|]. intros t' Ht'. apply Hfresh. by apply list_elem_of_further.
Qed.

(** The provider map after [initialize] is the one its loop built. *)
Lemma initialize_providers f config m :
  providers (initialize f config m).1
  = providers (foldl (initialize_entry f (getAvailableProvidersAsync f)) m
                 (cfg_providers config)).
Proof.
  unfold initialize. case_bool_decide; [done|].
  destruct (Map_has _ _); [done|]. by destruct (getAvailableProviders _).
Qed.

(** X13. [create] throws exactly when no provider was constructed, and
    then the error that asks to install an SDK. Otherwise the manager is
    initialized: its primary provider is the configured one if that was
    constructed, and the first constructed provider if not; the
    fallback list is the configured one, or empty. *)
Theorem create_outcome f config :
  let m := (create f config).1 in
  let err := (create f config).2 in
  fallbackProviders m = default [] (cfg_fallbackProviders config) ∧
  (err = Some NoProvidersAvailable ↔ getAvailableProviders m = []) ∧
  (err = None ↔ getAvailableProviders m ≠ []) ∧
  (err = None →
     initialized m ∧
     (cfg_primaryProvider config ∈ getAvailableProviders m →
        primaryProvider m = cfg_primaryProvider config) ∧
     (cfg_primaryProvider config ∉ getAvailableProviders m →
        Some (primaryProvider m) = head (getAvailableProviders m))).
Proof.
  unfold create, initialize.
  destruct (initialize_entries_keep f (getAvailableProvidersAsync f)
              (cfg_providers config) (new_manager config)) as (Hp & Hf & _).
  set (m1 := foldl _ (new_manager config) (cfg_providers config)) in *.
  simpl in Hp, Hf.
  assert (Hkeys : ∀ t, Map_has (providers m1) t = true ↔ t ∈ Map_keys (providers m1)).
  { intros t. by rewrite Map_has_get, Map_get_keys. }
  unfold getAvailableProviders.
  case_bool_decide as Hsize; simpl.
  { apply nil_length_inv in Hsize. unfold Map_keys. rewrite Hsize. simpl.
    split; [done|]. split; [done|]. split; [|done]. split; [done|]. by intros []. }
  assert (Hne : Map_keys (providers m1) ≠ []).
  { unfold Map_keys. intros Hnil. apply fmap_nil_inv in Hnil. by rewrite Hnil in Hsize. }
  destruct (Map_has (providers m1) (primaryProvider m1)) eqn:Hhas; simpl.
  - split; [done|]. split; [done|]. split; [done|]. intros _.
    split; [done|]. split; [done|]. intros Hnotin. exfalso. apply Hnotin.
    rewrite <- Hp. by apply Hkeys.
  - unfold getAvailableProviders.
    destruct (Map_keys (providers m1)) as [|first rest] eqn:Hk; [done|].
    cbn [fst snd providers set_primary primaryProvider fallbackProviders].
    rewrite Hk. split; [done|]. split; [done|]. split; [done|]. intros _.
    split; [|split].
    + unfold initialized. simpl. apply Hkeys. apply list_elem_of_here.
    + intros Hin. exfalso. rewrite <- Hp in Hin.
      apply Hkeys in Hin. by rewrite Hin in Hhas.
    + done.
Qed.



Lemma providersToTry_NoDup m :
  primaryProvider m ∉ fallbackProviders m → NoDup (fallbackProviders m) →
  NoDup (providersToTry m).
Proof.
  intros Hnotin Hnodup. apply NoDup_cons. split.
  - by intros [_ ?]%list_elem_of_filter.
  - by apply NoDup_filter.
Qed.

(** In a list without duplicates, the last entry occurs at the end
    only. *)
Lemma NoDup_last_end {A} (l1 : list A) x l2 :
  NoDup (l1 ++ x :: l2) → last (l1 ++ x :: l2) = Some x → l2 = [].
Proof.
  intros Hnodup Hlast. destruct l2 as [|y l2]; [done|]. exfalso.
  apply NoDup_app in Hnodup as (_ & _ & Hnodup).
  apply NoDup_cons in Hnodup as [Hnotin _]. apply Hnotin.
  rewrite last_app_cons, last_cons_cons in Hlast.
  by apply last_Some_elem_of.
Qed.

Lemma goes_on_call_fails m messages options lastType tried :
  Forall (goes_on m messages options lastType) tried →
  Forall (call_fails m messages options) tried.
Proof. intros Hall. eapply Forall_impl; [done|]. by intros t [? _]. Qed.

(** X15. When the primary provider is not listed as a fallback and no
    fallback is listed twice, [chat] of an initialized manager does what
    its comments say: it returns the response of the first provider of
    the try order whose call succeeds, having called the providers
    before it and no other; and when every provider of the try order
    fails it has called them all and throws the error that carries the
    error of the last one. *)
Theorem chat_first_success_without_duplicates m messages options :
  initialized m →
  primaryProvider m ∉ fallbackProviders m →
  NoDup (fallbackProviders m) →
  ∃ log r,
    manager_chat m messages options = (m, log, r) ∧
    ((∃ tried t rest response,
        providersToTry m = tried ++ t :: rest ∧
        Forall (call_fails m messages options) tried ∧
        answer m messages options t = Some (inl response) ∧
        r = inl response ∧ attempts log = tried ++ [t]) ∨
     (∃ t err,
        Forall (call_fails m messages options) (providersToTry m) ∧
        last (providersToTry m) = Some t ∧
        answer m messages options t = Some (inr err) ∧
        r = inr (AllProvidersFailed err) ∧
        attempts log = providersToTry m)).
Proof.
  intros Hinit Hnotin Hnodup.
  pose proof (providersToTry_NoDup m Hnotin Hnodup) as Hnd.
  destruct (chat_loop_shape m messages options (last (providersToTry m))
              (providersToTry m))
    as (tried & t & rest & p & Hsplit & Htried & Hp & Hrun);
    [done|done|by apply providersToTry_constructed|].
  unfold manager_chat.
  destruct Hrun as [(response & Hr & Hloop)|(err & Hr & Heq & Hloop)];
    rewrite Hloop; eexists _, _; (split; [done|]).
  - left. exists tried, t, rest, response. split; [done|].
    split; [by eapply goes_on_call_fails|].
    split; [unfold answer; rewrite Hp; simpl; by rewrite Hr|].
    split; [done|].
    rewrite attempts_app. by erewrite attempts_failures.
  - right. exists t, err.
    assert (Hans : answer m messages options t = Some (inr err)).
    { unfold answer. rewrite Hp. simpl. by rewrite Hr. }
    assert (rest = []) as ->.
    { rewrite Hsplit in Hnd. apply (NoDup_last_end tried t rest); [done|].
      by rewrite <- Hsplit. }
    split; [|split; [done|split; [done|split; [done|]]]].
    + rewrite Hsplit. apply Forall_app. split; [by eapply goes_on_call_fails|].
      constructor; [by exists err|constructor].
    + rewrite attempts_app. erewrite attempts_failures by done. by rewrite Hsplit.
Qed.

Lemma filter_nil_Forall (m : ProviderMap) (l : list LLMProviderType) :
  filter (λ p, Map_has m p = true) l = [] ↔ Forall (λ t, Map_has m t = false) l.
Proof.
  induction l as [|t l IH]; [done|]. rewrite filter_cons.
  destruct (Map_has m t) eqn:Hhas.
  - rewrite decide_True by done. split; [done|]. intros Hall.
    apply Forall_cons in Hall as [Hf _]. congruence.
  - rewrite decide_False by done. rewrite IH. split.
    + intros Hall. by constructor.
    + by intros [_ ?]%Forall_cons.
Qed.

(** A run of the loop that meets a constructed provider does not end
    with the error thrown after the loop. *)
Lemma chat_loop_tried m messages options toTry :
  toTry ≠ [] →
  Forall (λ t, is_Some (Map_get (providers m) t)) toTry →
  ∃ log r, chat_loop (last toTry) toTry m messages options = (m, log, r) ∧
           r ≠ inr NoProviderTried ∧ log ≠ [].
Proof.
  intros Hne Hall.
  destruct (chat_loop_shape m messages options (last toTry) toTry)
    as (tried & t & rest & p & Hsplit & Htried & Hp & Hrun); [done|done|done|].
  destruct Hrun as [(response & Hr & Hloop)|(err & Hr & Heq & Hloop)];
    rewrite Hloop; eexists _, _; (split; [done|]); (split; [done|]);
    by intros [_ ?]%app_eq_nil.
Qed.

(** X16. [chat] ends with the error thrown after its loop ('No LLM
    providers available') exactly when neither the primary provider nor
    any listed fallback is constructed, which is exactly when it has
    called no provider. *)
Theorem chat_no_provider_tried m messages options :
  ∃ log r,
    manager_chat m messages options = (m, log, r) ∧
    (r = inr NoProviderTried ↔
       Map_has (providers m) (primaryProvider m) = false ∧
       Forall (λ t, Map_has (providers m) t = false) (fallbackProviders m)) ∧
    (r = inr NoProviderTried ↔ log = []).
Proof.
  destruct (Map_has (providers m) (primaryProvider m)) eqn:Hhas.
  - destruct (chat_loop_tried m messages options (providersToTry m))
      as (log & r & Hloop & Hr & Hlog); [done|by apply providersToTry_constructed|].
    exists log, r. split; [done|]. split; (split; [done|]); [by intros [? _]|done].
  - unfold manager_chat, providersToTry.
    assert (Hget : Map_get (providers m) (primaryProvider m) = None).
    { apply eq_None_not_Some. intros Hsome. apply Map_has_get in Hsome. congruence. }
    set (rest := filter _ (fallbackProviders m)).
    assert (Hrest : Forall (λ t, is_Some (Map_get (providers m) t)) rest).
    { apply Forall_forall. intros t [Ht _]%list_elem_of_filter. by apply Map_has_get. }
    pose proof (filter_nil_Forall (providers m) (fallbackProviders m)) as Hnil.
    fold rest in Hnil.
    destruct rest as [|t rest'] eqn:Hrest_eq.
    + simpl. rewrite Hget. exists [], (inr NoProviderTried). split; [done|].
      split; (split; [|done]); intros _; [|done]. split; [done|]. by apply Hnil.
    + cbn [chat_loop]. rewrite Hget.
      destruct (chat_loop_tried m messages options (t :: rest'))
        as (log & r & Hloop & Hr & Hlog); [done|done|].
      change (last (primaryProvider m :: t :: rest')) with (last (t :: rest')).
      exists log, r. split; [done|]. split; (split; [done|]); [|done].
      intros [_ Hall]. by apply Hnil in Hall.
Qed.

Lemma initialize_keeps_fallbacks f config m :
  fallbackProviders (initialize f config m).1 = fallbackProviders m.
Proof.
  destruct (initialize_entries_keep f (getAvailableProvidersAsync f)
              (cfg_providers config) m) as (_ & Hf & _).
  unfold initialize. case_bool_decide; [done|].
  destruct (Map_has _ _); [done|]. by destruct (getAvailableProviders _).
Qed.

Lemma after_keeps m call :
  initialized m →
  initialized (after m call) ∧
  fallbackProviders (after m call) = fallbackProviders m ∧
  ∀ t, Map_has (providers m) t = true → Map_has (providers (after m call)) t = true.
Proof.
  intros Hinit. destruct call as [f config|messages options|prompt options| | |provider];
    simpl.
  - destruct (initialize_entries_keep f (getAvailableProvidersAsync f)
                (cfg_providers config) m) as (Hp & Hf & Hhas).
    pose proof (initialize_keeps_primary f config m Hinit) as Hprim.
    pose proof (initialize_providers f config m) as Hprov.
    split; [|split].
    + unfold initialized. rewrite Hprim, Hprov. by apply Hhas.
    + apply initialize_keeps_fallbacks.
    + intros t Ht. rewrite Hprov. by apply Hhas.
  - unfold manager_chat. by rewrite chat_loop_manager.
  - unfold manager_prompt, manager_chat. by rewrite chat_loop_manager.
  - done.
  - done.
  - unfold switchPrimaryProvider.
    destruct (Map_has (providers m) provider) eqn:Hhas; done.
Qed.

(** X17. After a [create] that returned, whatever public methods are
    called and in whatever order: the primary provider is constructed,
    the fallback list is the configured one, no constructed provider is
    dropped, and [chat] never ends with the error thrown after its
    loop. *)
Theorem manager_stays_ready f config m calls :
  create f config = (m, None) →
  let m' := after_all m calls in
  initialized m' ∧
  fallbackProviders m' = default [] (cfg_fallbackProviders config) ∧
  (∀ t, t ∈ getAvailableProviders m → t ∈ getAvailableProviders m') ∧
  ∀ messages options, (manager_chat m' messages options).2 ≠ inr NoProviderTried.
Proof.
  intros Hcreate.
  assert (Hinit : initialized m).
  { pose proof (initialize_initialized f config (new_manager config)) as H.
    unfold create in Hcreate. rewrite Hcreate in H. by apply H. }
  assert (Hfall : fallbackProviders m = default [] (cfg_fallbackProviders config)).
  { pose proof (initialize_keeps_fallbacks f config (new_manager config)) as H.
    unfold create in Hcreate. by rewrite Hcreate in H. }
  assert (Hinv : ∀ calls m0, initialized m0 →
    initialized (after_all m0 calls) ∧
    fallbackProviders (after_all m0 calls) = fallbackProviders m0 ∧
    ∀ t, Map_has (providers m0) t = true →
         Map_has (providers (after_all m0 calls)) t = true).
  { clear. induction calls as [|call calls IH]; intros m0 Hinit; [done|].
    destruct (after_keeps m0 call Hinit) as (Hi & Hf & Hh).
    destruct (IH _ Hi) as (Hi' & Hf' & Hh').
    unfold after_all in *. simpl. split; [done|]. split; [congruence|].
    intros t Ht. by apply Hh', Hh. }
  destruct (Hinv calls m Hinit) as (Hi & Hf & Hh). simpl.
  split; [done|]. split; [congruence|]. split.
  - intros t Ht. unfold getAvailableProviders in *.
    apply Map_get_keys, Map_has_get, Hh, Map_has_get, Map_get_keys. done.
  - intros messages options.
    destruct (chat_loop_tried (after_all m calls) messages options
                (providersToTry (after_all m calls)))
      as (log & r & Hloop & Hr & _); [done|by apply providersToTry_constructed|].
    unfold manager_chat. by rewrite Hloop.
Qed.

(** ** The adapters *)

Lemma convert_snoc messages message :
  convert (messages ++ [message]) = convert_step (convert messages) message.
Proof. unfold convert. by rewrite foldl_app. Qed.

Lemma model_texts_app h1 h2 : model_texts (h1 ++ h2) = model_texts h1 ++ model_texts h2.
Proof. unfold model_texts. apply bind_app. Qed.

Lemma model_texts_user text : model_texts [user_entry text] = [].
Proof. reflexivity. Qed.

Lemma model_texts_model text : model_texts [model_entry text] = [text].
Proof. reflexivity. Qed.

(** What the loop of [GeminiProvider.chat] has built after any number
    of messages. *)
Lemma convert_invariant messages :
  let history := (convert messages).1 in
  let lastMessage := (convert messages).2 in
  model_texts history
    = msg_content <$> filter (λ m, msg_role m = assistant) messages ∧
  (∀ i c, history !! i = Some c → gc_role c ≠ "model" →
     ∃ u a, c = user_entry (msg_content u) ∧
            u ∈ messages ∧ msg_role u = user ∧ msg_content u ≠ "" ∧
            a ∈ messages ∧ msg_role a = assistant ∧
            history !! S i = Some (model_entry (msg_content a))) ∧
  (lastMessage = "" ∨
   ∃ u, u ∈ messages ∧ msg_role u = user ∧ msg_content u = lastMessage).
Proof.
  induction messages as [|message messages IH] using rev_ind.
  { simpl. split; [done|]. split; [|by left]. intros i c Hi. by destruct i. }
  rewrite convert_snoc. destruct (convert messages) as [history lastMessage].
  simpl in IH. destruct IH as (Hmodels & Husers & Hlast).
  assert (Hmono : ∀ i c, history !! i = Some c → gc_role c ≠ "model" →
     ∃ u a, c = user_entry (msg_content u) ∧
            u ∈ messages ++ [message] ∧ msg_role u = user ∧ msg_content u ≠ "" ∧
            a ∈ messages ++ [message] ∧ msg_role a = assistant ∧
            history !! S i = Some (model_entry (msg_content a))).
  { intros i c Hi Hc.
    destruct (Husers i c Hi Hc) as (u & a & -> & Hu & ? & ? & Ha & ? & ?).
    exists u, a. rewrite !elem_of_app. by eauto 10. }
  unfold convert_step. rewrite filter_app, fmap_app, filter_cons, filter_nil.
  destruct (msg_role message) eqn:Hrole; simpl.
  - rewrite app_nil_r.
    split; [done|]. split; [done|].
    destruct Hlast as [?|(u & ? & ? & ?)]; [by left|right].
    exists u. rewrite elem_of_app. by eauto.
  - rewrite app_nil_r.
    split; [done|]. split; [done|]. right. exists message.
    rewrite elem_of_app, list_elem_of_singleton. by eauto.
  - assert (Hin : message ∈ messages ++ [message]).
    { rewrite elem_of_app, list_elem_of_singleton. by right. }
    fold (model_entry (msg_content message)). fold (user_entry lastMessage).
    destruct (String.eqb_spec lastMessage "") as [->|Hne].
    + split; [|split; [|by left]].
      * by rewrite model_texts_app, Hmodels, (model_texts_model (msg_content message)).
      * intros i c Hi Hc. apply lookup_app_Some in Hi as [Hi|[Hlen Hi]].
        -- destruct (Hmono i c Hi Hc) as (u & a & ? & ? & ? & ? & ? & ? & Hnext).
           exists u, a. repeat (split; [done|]). by apply lookup_app_l_Some.
        -- apply list_lookup_singleton_Some in Hi as [_ <-]. by destruct Hc.
    + split; [|split; [|by left]].
      * rewrite !model_texts_app, Hmodels, (model_texts_user lastMessage),
          (model_texts_model (msg_content message)). by rewrite app_nil_r.
      * intros i c Hi Hc. apply lookup_app_Some in Hi as [Hi|[Hlen Hi]].
        -- apply lookup_app_Some in Hi as [Hi|[Hlen Hi]].
           ++ destruct (Hmono i c Hi Hc) as (u & a & ? & ? & ? & ? & ? & ? & Hnext).
              exists u, a. repeat (split; [done|]).
              by apply lookup_app_l_Some, lookup_app_l_Some.
           ++ apply list_lookup_singleton_Some in Hi as [Hi <-].
              destruct Hlast as [?|(u & Hu & Hur & Huc)]; [done|].
              exists u, message. rewrite Huc. split; [done|].
              split; [rewrite elem_of_app; by left|]. split; [done|].
              split; [done|]. split; [done|]. split; [done|].
              replace (S i) with (length (history ++ [user_entry lastMessage]) + 0)
                by (rewrite length_app; simpl; lia).
              by rewrite lookup_app_r, Nat.add_comm, Nat.add_sub by lia.
        -- apply list_lookup_singleton_Some in Hi as [_ <-]. by destruct Hc.
Qed.

(** X18. The history that the Gemini adapter hands to [startChat]: its
    entries of role [model] carry the contents of the assistant
    messages, one each and in their order; every other entry is a
    [user] entry that carries the content, not empty, of a user message
    and is followed at once by a [model] entry. So the history never
    holds two user entries in a row and never ends with one. *)
Theorem gemini_history_turns messages :
  let history := (convert messages).1 in
  model_texts history
    = msg_content <$> filter (λ m, msg_role m = assistant) messages ∧
  ∀ i c, history !! i = Some c → gc_role c ≠ "model" →
    ∃ u a, c = user_entry (msg_content u) ∧
           u ∈ messages ∧ msg_role u = user ∧ msg_content u ≠ "" ∧
           a ∈ messages ∧ msg_role a = assistant ∧
           history !! S i = Some (model_entry (msg_content a)).
Proof.
  destruct (convert_invariant messages) as (Hmodels & Husers & _). by split.
Qed.

(** X19. When the last message is not a system message, the Gemini
    adapter sends the content of that message with [sendMessage],
    whatever precedes it. For a last message of the assistant that
    content is also the last entry of the history: the answer of the
    model is sent back to it as the message of the user. *)
Theorem gemini_message_is_final_turn config options before final :
  msg_role final ≠ system →
  ∃ request,
    gemini_request config (before ++ [final]) options = inl request ∧
    req_message request = msg_content final ∧
    (msg_role final = assistant →
       last (req_history request) = Some (model_entry (msg_content final))).
Proof.
  intros Hrole. unfold gemini_request, gemini_message.
  rewrite convert_snoc, last_snoc.
  destruct (convert before) as [history lastMessage]. unfold convert_step.
  destruct (msg_role final) eqn:Hfinal; [done| |]; simpl.
  - destruct (String.eqb_spec (msg_content final) "") as [Heq|Hne];
      eexists; (split; [done|]); by split.
  - eexists. split; [done|]. split; [done|]. intros _. simpl.
    by rewrite last_snoc.
Qed.

(** X20. Of two user messages in a row the Gemini adapter keeps the
    second only: the request is the one built without the first. *)
Theorem gemini_keeps_last_of_consecutive_user_turns config options before u1 u2 after' :
  msg_role u1 = user → msg_role u2 = user →
  gemini_request config (before ++ u1 :: u2 :: after') options
  = gemini_request config (before ++ u2 :: after') options.
Proof.
  intros Hu1 Hu2.
  assert (Hconv : convert (before ++ u1 :: u2 :: after') = convert (before ++ u2 :: after')).
  { unfold convert. rewrite !foldl_app. simpl.
    destruct (foldl convert_step ([], "") before) as [history lastMessage].
    f_equal. unfold convert_step. by rewrite Hu1, Hu2. }
  unfold gemini_request, gemini_message. rewrite Hconv.
  by rewrite !last_app_cons, last_cons_cons.
Qed.

(** X21. For an empty list of messages the Gemini adapter throws, with
    its prefix, the [TypeError] of reading [content] of the missing last
    message, whatever the backend would answer; a list that is not
    empty always yields a message to send. *)
Theorem gemini_empty_conversation sdk config options :
  chat (GeminiProvider (Some sdk) config) [] options
  = inr "Gemini API error: Cannot read properties of undefined (reading 'content')" ∧
  ∀ messages, messages ≠ [] ↔ ∃ text, gemini_message messages = inl text.
Proof.
  split; [reflexivity|]. intros messages. unfold gemini_message. split.
  - intros Hne. destruct (String.eqb _ _); [|by eexists].
    destruct (last messages) as [m|] eqn:Hlast; [by eexists|].
    by apply last_None in Hlast.
  - intros [text Htext] ->. done.
Qed.

Lemma getModel_choice supported config config' options first :
  first ≠ "" → hd "" supported = first →
  defaultModel config' = Some (default first (defaultModel config)) →
  let model := getModel supported config' options in
  model ≠ "" ∧
  model = match given (options ≫= opt_model), given (defaultModel config) with
          | Some chosen, _ => chosen
          | None, Some configured => configured
          | None, None => first
          end.
Proof.
  intros Hfirst Hhd Hconfig. unfold getModel, given, or_string.
  rewrite Hconfig, Hhd.
  destruct (options ≫= opt_model) as [chosen|];
    [destruct (String.eqb_spec chosen "") as [->|?]; [|done]|];
    (destruct (defaultModel config) as [configured|]; simpl;
     [destruct (String.eqb_spec configured "") as [->|?]; [done|done]|]);
    by destruct (String.eqb_spec first "").
Qed.

(** X22. The model that an adapter made from [config] uses for a
    request is never the empty string: it is [options.model] when that
    is set and not empty, otherwise [config.defaultModel] when that is
    set and not empty, otherwise the first supported model of the
    adapter. *)
Theorem adapter_model_choice a config options :
  let p := new_adapter a config in
  let model := getModel (supportedModels p) (LLM.config p) options in
  model ≠ "" ∧
  model = match given (options ≫= opt_model), given (defaultModel config) with
          | Some chosen, _ => chosen
          | None, Some configured => configured
          | None, None => hd "" (supportedModels p)
          end.
Proof.
  destruct a as [sdk|sdk|sdk]; by apply getModel_choice.
Qed.

Lemma anthropic_systemMessage_last before s after' :
  msg_role s = system → Forall (λ m, msg_role m ≠ system) after' →
  anthropic_systemMessage (before ++ s :: after') = msg_content s.
Proof.
  intros Hs Hafter. unfold anthropic_systemMessage. rewrite foldl_app. simpl.
  rewrite decide_True by done. generalize (msg_content s).
  induction Hafter as [|m after' Hm _ IH]; intros text; [done|].
  simpl. rewrite decide_False by done. apply IH.
Qed.

(** X23. The Anthropic adapter passes on the last system message only:
    its content is the field [system] of the request (absent when it is
    empty), the field [messages] holds the messages that are not system
    messages, in their order, and earlier system messages leave no
    trace in the request. *)
Theorem anthropic_keeps_last_system_message config options before s after' :
  msg_role s = system → Forall (λ m, msg_role m ≠ system) after' →
  let request := anthropic_request config (before ++ s :: after') options in
  areq_system request = given (Some (msg_content s)) ∧
  areq_messages request = filter (λ m, msg_role m ≠ system) before ++ after' ∧
  request
  = anthropic_request config
      (filter (λ m, msg_role m ≠ system) before ++ s :: after') options.
Proof.
  intros Hs Hafter.
  assert (Hfilter : ∀ l, filter (λ m, msg_role m ≠ system) (l ++ s :: after')
                         = filter (λ m, msg_role m ≠ system) l ++ after').
  { intros l. rewrite filter_app, filter_cons.
    rewrite decide_False by (intros Hne; by apply Hne). f_equal.
    clear -Hafter. induction Hafter as [|m after' Hm _ IH]; [done|].
    rewrite filter_cons, decide_True by done. by rewrite IH. }
  unfold anthropic_request. simpl.
  rewrite !anthropic_systemMessage_last by done. rewrite !Hfilter.
  split; [done|]. split; [done|]. f_equal.
  f_equal. symmetry. apply list_filter_filter_l. done.
Qed.

(** X13 at an input: the configuration of the README when the Anthropic
    SDK is not installed. *)
Lemma create_outcome_witness :
  Some (primaryProvider (create factory_without_anthropic readme_config).1)
  = head (getAvailableProviders (create factory_without_anthropic readme_config).1).
Proof.
  apply (create_outcome factory_without_anthropic readme_config).
  - reflexivity.
  - vm_compute. intros Hin. repeat (apply elem_of_cons in Hin as [Heq|Hin]; [done|]).
    by apply elem_of_nil in Hin.
Defined.


(** X15 at an input: the manager of the README. *)
Lemma chat_first_success_without_duplicates_witness :
  ∃ log r,
    manager_chat manager_readme hello None = (manager_readme, log, r) ∧
    ((∃ tried t rest response,
        providersToTry manager_readme = tried ++ t :: rest ∧
        Forall (call_fails manager_readme hello None) tried ∧
        answer manager_readme hello None t = Some (inl response) ∧
        r = inl response ∧ attempts log = tried ++ [t]) ∨
     (∃ t err,
        Forall (call_fails manager_readme hello None) (providersToTry manager_readme) ∧
        last (providersToTry manager_readme) = Some t ∧
        answer manager_readme hello None t = Some (inr err) ∧
        r = inr (AllProvidersFailed err) ∧
        attempts log = providersToTry manager_readme)).
Proof.
  apply (chat_first_success_without_duplicates manager_readme hello None).
  - reflexivity.
  - compute_done.
  - compute_done.
Defined.

(** X17 at an input: a switch of the primary provider, then a chat. *)
Lemma manager_stays_ready_witness :
  let m := (create factory_without_anthropic readme_config).1 in
  let m' := after_all m [call_switchPrimaryProvider gemini; call_chat hello None] in
  initialized m' ∧
  fallbackProviders m' = default [] (cfg_fallbackProviders readme_config) ∧
  (∀ t, t ∈ getAvailableProviders m → t ∈ getAvailableProviders m') ∧
  ∀ messages options, (manager_chat m' messages options).2 ≠ inr NoProviderTried.
Proof.
  apply (manager_stays_ready factory_without_anthropic readme_config).
  reflexivity.
Defined.

(** X18 at an input: the first entry of the history of a conversation. *)
Lemma gemini_history_turns_witness :
  ∃ u a,
    user_entry "What is Rocq?" = user_entry (msg_content u) ∧
    u ∈ conversation ∧ msg_role u = user ∧ msg_content u ≠ "" ∧
    a ∈ conversation ∧ msg_role a = assistant ∧
    (convert conversation).1 !! 1 = Some (model_entry (msg_content a)).
Proof.
  apply (proj2 (gemini_history_turns conversation) 0 (user_entry "What is Rocq?")).
  - reflexivity.
  - compute_done.
Defined.

(** X19 at an input: a conversation that ends with a question of the
    user. *)
Lemma gemini_message_is_final_turn_witness :
  ∃ request,
    gemini_request stub_config conversation no_options = inl request ∧
    req_message request = "Who develops it?" ∧
    (user = assistant →
       last (req_history request) = Some (model_entry "Who develops it?")).
Proof.
  apply (gemini_message_is_final_turn stub_config no_options (take 5 conversation)
           {| msg_role := user; msg_content := "Who develops it?" |}).
  compute_done.
Defined.

(** X20 at an input: the user wrote twice before the first answer. *)
Lemma gemini_keeps_last_of_consecutive_user_turns_witness :
  gemini_request stub_config conversation no_options
  = gemini_request stub_config
      (take 1 conversation ++ drop 2 conversation) no_options.
Proof.
  apply (gemini_keeps_last_of_consecutive_user_turns stub_config no_options
           (take 1 conversation)
           {| msg_role := user; msg_content := "Hi" |}
           {| msg_role := user; msg_content := "What is Rocq?" |}
           (drop 3 conversation)); reflexivity.
Defined.

(** X23 at an input: a conversation with two system messages. *)
Lemma anthropic_keeps_last_system_message_witness :
  let request := anthropic_request stub_config conversation no_options in
  areq_system request = given (Some "Answer in French.") ∧
  areq_messages request
  = filter (λ m, msg_role m ≠ system) (take 4 conversation) ++ drop 5 conversation ∧
  request
  = anthropic_request stub_config
      (filter (λ m, msg_role m ≠ system) (take 4 conversation)
       ++ {| msg_role := system; msg_content := "Answer in French." |}
       :: drop 5 conversation) no_options.
Proof.
  apply (anthropic_keeps_last_system_message stub_config no_options
           (take 4 conversation)
           {| msg_role := system; msg_content := "Answer in French." |}
           (drop 5 conversation)).
  - reflexivity.
  - repeat constructor. compute_done.
Defined.
